(** * Chunked translation: the chunker and the per-chunk processing loop

    A shallow embedding of [translate_file_app_en_to_zh_chunking.py]:
    [split_text_into_chunks], [translate_text] and the loop of the
    translate-button handler, with the properties of the specification
    stated and proved (or refuted) on the embedding.

    A Python [str] is a list of Unicode code points, so that [len] is the
    length of the list; a Python [int] is a [Z]. *)

From Stdlib Require Import ZArith NArith List Bool Lia.
From Stdlib Require Ascii String.
Import String.StringSyntax.
Import ListNotations.
Open Scope Z_scope.

(* ================================================================== *)
(** * Part I: definitions                                               *)
(* ================================================================== *)

(** ** Python strings *)

Module Py.

Definition char := N.
Definition str := list char.

(** [len(s)] *)
Definition len (s : str) : Z := Z.of_nat (List.length s).

(** Truthiness of a string: [if s:] *)
Definition truthy (s : str) : bool :=
  match s with
  | [] => false
  | _ :: _ => true
  end.

Definition NL : char := 10%N.

(** The paragraph separator, two newline characters. *)
Definition SEP : str := [NL; NL].

Definition is_nl (c : char) : bool := N.eqb c NL.

(** [s.split('\n\n')]: the leftmost occurrence of the separator ends the
    first field, and the scan goes on after it. The result is never the
    empty list. *)
Fixpoint split_nn (s : str) : list str :=
  match s with
  | [] => [[]]
  | c :: s' =>
      match s' with
      | d :: s'' =>
          if is_nl c && is_nl d then [] :: split_nn s''
          else match split_nn s' with
               | p :: ps => (c :: p) :: ps
               | [] => [[c]]
               end
      | [] => [[c]]
      end
  end.

(** Does the string begin with a newline? *)
Definition starts_nl (s : str) : bool :=
  match s with
  | d :: _ => is_nl d
  | [] => false
  end.

(** The text without its paragraph separators: its paragraphs, one
    after the other. *)
Definition content (s : str) : str := concat (split_nn s).

(** [sep.join(l)] *)
Fixpoint join (sep : str) (l : list str) : str :=
  match l with
  | [] => []
  | [x] => x
  | x :: l' => x ++ sep ++ join sep l'
  end.

(** Normalisation of a slice index against a length, as Python's slices
    do it: a negative index counts from the end, and the result is
    clamped to [0 .. n]. *)
Definition clamp_index (n i : Z) : Z :=
  if i <? 0 then Z.max 0 (i + n) else Z.min i n.

(** [s[i:j]] *)
Definition slice (s : str) (i j : Z) : str :=
  let a := clamp_index (len s) i in
  let b := clamp_index (len s) j in
  firstn (Z.to_nat (b - a)) (skipn (Z.to_nat a) s).

(** [c.isspace()] for one code point. *)
Definition is_space (c : char) : bool :=
  ((9 <=? c) && (c <=? 13) || (28 <=? c) && (c <=? 32) ||
   (c =? 133) || (c =? 160) || (c =? 5760) ||
   (8192 <=? c) && (c <=? 8202) || (c =? 8232) || (c =? 8233) ||
   (c =? 8239) || (c =? 8287) || (c =? 12288))%N.

Fixpoint lstrip (s : str) : str :=
  match s with
  | [] => []
  | c :: s' => if is_space c then lstrip s' else s
  end.

Definition rstrip (s : str) : str := rev (lstrip (rev s)).

(** [s.strip()] *)
Definition strip (s : str) : str := rstrip (lstrip s).

Fixpoint starts_with (pat s : str) : bool :=
  match pat, s with
  | [], _ => true
  | _ :: _, [] => false
  | a :: pat', b :: s' => N.eqb a b && starts_with pat' s'
  end.

(** [pat in s] *)
Fixpoint contains (pat s : str) : bool :=
  starts_with pat s ||
  match s with
  | [] => false
  | _ :: s' => contains pat s'
  end.

Fixpoint digits (d : Decimal.uint) : str :=
  match d with
  | Decimal.Nil => []
  | Decimal.D0 d' => 48%N :: digits d'
  | Decimal.D1 d' => 49%N :: digits d'
  | Decimal.D2 d' => 50%N :: digits d'
  | Decimal.D3 d' => 51%N :: digits d'
  | Decimal.D4 d' => 52%N :: digits d'
  | Decimal.D5 d' => 53%N :: digits d'
  | Decimal.D6 d' => 54%N :: digits d'
  | Decimal.D7 d' => 55%N :: digits d'
  | Decimal.D8 d' => 56%N :: digits d'
  | Decimal.D9 d' => 57%N :: digits d'
  end.

(** [str(n)] for a natural number. *)
Definition str_of_nat (n : nat) : str := digits (Nat.to_uint n).

(** An ASCII literal as a Python string. *)
Fixpoint lit (s : String.string) : str :=
  match s with
  | String.EmptyString => []
  | String.String a s' => Ascii.N_of_ascii a :: lit s'
  end.

Arguments lit s%_string_scope.

End Py.

Import Py.

(** ** The chunker *)

Module Chunker.

Definition MAX_CHARS_PER_CHUNK : Z := 2500.

(** The accumulators of the function: [chunks] and [current_chunk]. *)
Definition state := (list str * str)%type.

(** Body of the forced-splitting loop for one slice [long_para_chunk]
    (source lines 101-115). *)
Definition place_slice (max_chars : Z) (st : state) (long_para_chunk : str)
  : state :=
  let '(chunks, current_chunk) := st in
  if len current_chunk + len long_para_chunk + 2 <=? max_chars then
    if truthy current_chunk
    then (chunks, current_chunk ++ SEP ++ long_para_chunk)
    else (chunks, long_para_chunk)
  else
    let chunks1 :=
      if truthy current_chunk then chunks ++ [current_chunk] else chunks in
    let current_chunk1 := long_para_chunk in
    if len current_chunk1 >=? max_chars
    then (chunks1 ++ [current_chunk1], [])
    else (chunks1, current_chunk1).

(** [end = min(start + max_chars, len(paragraph))] *)
Definition slice_end (paragraph : str) (max_chars start : Z) : Z :=
  Z.min (start + max_chars) (len paragraph).

(** The loop [while start < len(paragraph)] (source lines 93-117): each
    turn cuts [paragraph[start:end]], hands it to [body] and goes on from
    [end]. [None] when the fuel runs out before the loop ends. *)
Fixpoint while_slices {S : Type} (fuel : nat) (body : S -> str -> S)
    (paragraph : str) (max_chars : Z) (st : S) (start : Z) : option S :=
  if start <? len paragraph then
    match fuel with
    | O => None
    | Datatypes.S fuel' =>
        let end_ := slice_end paragraph max_chars start in
        let long_para_chunk := slice paragraph start end_ in
        while_slices fuel' body paragraph max_chars
          (body st long_para_chunk) end_
    end
  else Some st.

(** The forced split of an oversized paragraph, from [start = 0]. *)
Definition force_split (fuel : nat) (max_chars : Z) (st : state)
    (paragraph : str) : option state :=
  while_slices fuel (place_slice max_chars) paragraph max_chars st 0.

(** A loop body that only records the slice it is given. *)
Definition record (acc : list str) (long_para_chunk : str) : list str :=
  acc ++ [long_para_chunk].

(** The slices the loop cuts, in the order it cuts them: the same loop
    with the recording body. *)
Definition forced_slices (fuel : nat) (max_chars : Z) (paragraph : str)
  : option (list str) :=
  while_slices fuel record paragraph max_chars [] 0.

(** [ceil (n / max_chars)], for [max_chars >= 1]. *)
Definition slice_count (max_chars n : Z) : Z :=
  (n + max_chars - 1) / max_chars.

(** A paragraph that is not oversized (source lines 123-133). *)
Definition place_paragraph (max_chars : Z) (st : state) (paragraph : str)
  : state :=
  let '(chunks, current_chunk) := st in
  if len current_chunk + len paragraph + 2 <=? max_chars then
    if truthy current_chunk
    then (chunks, current_chunk ++ SEP ++ paragraph)
    else (chunks, paragraph)
  else (chunks ++ [current_chunk], paragraph).

(** One turn of [for paragraph in paragraphs] (source lines 89-133). *)
Definition step (fuel : nat) (max_chars : Z) (st : state) (paragraph : str)
  : option state :=
  if len paragraph >? max_chars
  then force_split fuel max_chars st paragraph
  else Some (place_paragraph max_chars st paragraph).

Fixpoint for_paragraphs (fuel : nat) (max_chars : Z) (st : state)
    (paragraphs : list str) : option state :=
  match paragraphs with
  | [] => Some st
  | paragraph :: rest =>
      match step fuel max_chars st paragraph with
      | Some st' => for_paragraphs fuel max_chars st' rest
      | None => None
      end
  end.

(** The last chunk is added when it is not empty (source lines 136-139). *)
Definition finish (st : state) : list str :=
  let '(chunks, current_chunk) := st in
  if truthy current_chunk then chunks ++ [current_chunk] else chunks.

(** [split_text_into_chunks(text, max_chars)]; [fuel] bounds the turns of
    each forced-splitting loop. *)
Definition split_text_into_chunks (fuel : nat) (text : str) (max_chars : Z)
  : option (list str) :=
  match for_paragraphs fuel max_chars ([], []) (split_nn text) with
  | Some st => Some (finish st)
  | None => None
  end.

(** Turns that are enough for every forced-splitting loop on [text]. *)
Definition enough (text : str) : nat := List.length text.

(** All the characters the accumulators hold, in order. *)
Definition flat (st : state) : str := concat (fst st) ++ snd st.

(** Sizes: nothing held is longer than [max_chars]. *)
Definition sized (max_chars : Z) (st : state) : Prop :=
  Forall (fun chunk => len chunk <= max_chars) (fst st) /\
  len (snd st) <= max_chars.

(** The paragraph [p] is held or already among the chunks. *)
Definition keeps (p : str) (st : state) : Prop :=
  In p (fst st) \/ snd st = p.

End Chunker.

Import Chunker.

(** ** The chunk processor *)

Module Processor.

(** What the call [model.generate_content(full_prompt, stream=True)] and
    the reading of its stream come to: the streamed parts, each with a
    text or without one, or an exception with its message [str(e)]. *)
Inductive api_result : Type :=
| Stream (parts : list (option str))
| Raises (e : str).

Definition fixed_instruction_prompt : str :=
  lit "Please translate the following English text into accurate and natural Traditional Chinese:".

(** The literal ["[[翻譯錯誤:"] the handler looks for. *)
Definition ERROR_TAG : str :=
  [91; 91; 32763; 35695; 37679; 35492; 58]%N.

(** [f"[[翻譯錯誤: {e}]]"] *)
Definition error_marker (e : str) : str :=
  ERROR_TAG ++ [32%N] ++ e ++ lit "]]".

(** The literal ['未知錯誤']. *)
Definition UNKNOWN_ERROR : str := [26410; 30693; 37679; 35492]%N.

(** The text of a streamed part that has one and whose text is not
    empty; nothing for the other parts. *)
Definition part_text (part : option str) : str :=
  match part with
  | Some t => if truthy t then t else []
  | None => []
  end.

(** [translate_text(text_to_translate)] over the outcome of the API call
    for its prompt. [None] is Python's [None]. *)
Definition translate_text (api : str -> api_result) (text_to_translate : str)
  : option str :=
  if negb (truthy text_to_translate) then None
  else
    let full_prompt := fixed_instruction_prompt ++ SEP ++ text_to_translate in
    match api full_prompt with
    | Stream parts => Some (strip (concat (map part_text parts)))
    | Raises e => Some (error_marker e)
    end.

(** The test of source line 283:
    [translated_chunk and "[[翻譯錯誤:" not in translated_chunk]. *)
Definition is_success (translated_chunk : option str) : bool :=
  match translated_chunk with
  | Some t => truthy t && negb (contains ERROR_TAG t)
  | None => false
  end.

(** [translated_chunk or '未知錯誤'] *)
Definition or_unknown (translated_chunk : option str) : str :=
  match translated_chunk with
  | Some t => if truthy t then t else UNKNOWN_ERROR
  | None => UNKNOWN_ERROR
  end.

(** [f"\n--- 塊 {chunk_num} 翻譯失敗 ---\n{detail}\n---"] *)
Definition failure_marker (chunk_num : nat) (detail : str) : str :=
  [10; 45; 45; 45; 32; 22602; 32]%N ++ str_of_nat chunk_num ++
  [32; 32763; 35695; 22833; 25943; 32; 45; 45; 45; 10]%N ++ detail ++
  [10; 45; 45; 45]%N.

(** The variables the loop updates. *)
Record loop_state : Type := mk_loop_state {
  translated_chunks : list str;
  errors_occurred : bool
}.

(** The body of the loop for the chunk at index [i] (source lines
    274-288). [transform i] is the call of [translate_text] made in that
    turn. *)
Definition loop_body (transform : nat -> str -> option str)
    (st : loop_state) (i : nat) (chunk : str) : loop_state :=
  let chunk_num := (i + 1)%nat in
  let translated_chunk := transform i chunk in
  if is_success translated_chunk then
    match translated_chunk with
    | Some t => mk_loop_state (translated_chunks st ++ [t]) (errors_occurred st)
    | None => st
    end
  else
    mk_loop_state
      (translated_chunks st ++
         [failure_marker chunk_num (or_unknown translated_chunk)])
      true.

(** [for i, chunk in enumerate(text_chunks)], from index [i] on. *)
Fixpoint translate_loop (transform : nat -> str -> option str)
    (i : nat) (text_chunks : list str) (st : loop_state) : loop_state :=
  match text_chunks with
  | [] => st
  | chunk :: rest =>
      translate_loop transform (S i) rest (loop_body transform st i chunk)
  end.

(** The loop from its initial variables (source lines 266-267). *)
Definition process (transform : nat -> str -> option str)
    (text_chunks : list str) : loop_state :=
  translate_loop transform 0%nat text_chunks (mk_loop_state [] false).

(** The loop of the handler: the transform is [translate_text], and
    [api i] is the outcome of the API call of turn [i]. *)
Definition handler_loop (api : nat -> str -> api_result)
    (text_chunks : list str) : loop_state :=
  process (fun i chunk => translate_text (api i) chunk) text_chunks.

(** The chunk results of the specification: a translated text, or a
    failure marker with the 1-based index of the chunk and the failure
    detail. *)
Inductive chunk_result : Type :=
| Translated (text : str)
| Failure (chunk_num : nat) (detail : str).

Definition is_failure (r : chunk_result) : bool :=
  match r with
  | Translated _ => false
  | Failure _ _ => true
  end.

(** The string the loop keeps for a result. *)
Definition render (r : chunk_result) : str :=
  match r with
  | Translated text => text
  | Failure chunk_num detail => failure_marker chunk_num detail
  end.

(** The result for chunk number [chunk_num], from what the transform
    returned for it. *)
Definition classify (chunk_num : nat) (translated_chunk : option str)
  : chunk_result :=
  match translated_chunk with
  | Some t =>
      if is_success translated_chunk then Translated t
      else Failure chunk_num (or_unknown translated_chunk)
  | None => Failure chunk_num UNKNOWN_ERROR
  end.

(** [process] of the specification: one result per chunk, in the order of
    the chunks; the chunk at index [i] has number [i + 1]. *)
Fixpoint spec_process (transform : nat -> str -> option str) (i : nat)
    (chunks : list str) : list chunk_result :=
  match chunks with
  | [] => []
  | chunk :: rest =>
      classify (i + 1) (transform i chunk) :: spec_process transform (S i) rest
  end.

(** [final_translated_text = "\n\n".join(translated_chunks)] *)
Definition final_translated_text (st : loop_state) : str :=
  join SEP (translated_chunks st).

End Processor.

Import Processor.

(** ** The handler's way to the chunker *)

Module Handler.

(** Where the handler goes with the extracted text (source lines
    253-263 and 328-333). *)
Inductive route : Type :=
| ToTranslate (text_chunks : list str)
| NoChunks            (* total_chunks == 0: warning and st.stop() *)
| NoText              (* the text is empty once stripped *)
| ExtractFailed       (* extracted_text is None *)
| Hangs.              (* the chunker did not come back *)

Definition dispatch (fuel : nat) (extracted_text : option str) : route :=
  match extracted_text with
  | Some text =>
      if truthy (strip text) then
        match split_text_into_chunks fuel text MAX_CHARS_PER_CHUNK with
        | Some [] => NoChunks
        | Some text_chunks => ToTranslate text_chunks
        | None => Hangs
        end
      else NoText
  | None => ExtractFailed
  end.

End Handler.

Import Handler.

(** ** Lines *)

Module Lines.



(** Equality of two strings: [a == b]. *)
Definition str_eqb (a b : str) : bool :=
  if list_eq_dec N.eq_dec a b then true else false.

(** No whitespace at the head of the string. *)
Definition clean_head (s : str) : bool :=
  match s with
  | [] => true
  | c :: _ => negb (is_space c)
  end.

End Lines.

Import Lines.

(** ** The docx writer *)

Module Docx.










End Docx.

(** ** Reading the uploaded file *)

Module Extract.

(** What PyPDF2 gives for the file. *)
Inductive pdf_reading : Type :=
| PdfReadError (e : str)       (* the reader raises PdfReadError *)
| PdfOtherError (e : str)      (* any other exception *)
| Encrypted                    (* is_encrypted *)
| Pages (texts : list str).    (* extract_text() of the pages *)

(** The uploaded file as the function sees it: its extension (source line
    51) and what the decoders and the two libraries give for it. [None]
    for a decoder or for python-docx is an exception. *)
Record upload : Type := mk_upload {
  file_extension : str;
  decode_utf8 : option str;
  decode_big5_ignore : option str;
  decode_utf8_ignore : str;
  docx_paragraphs : option (list str);
  pdf : pdf_reading
}.

(** [extract_text_from_file(uploaded_file)]; [None] is Python's [None]. *)
Definition extract_text_from_file (f : upload) : option str :=
  if str_eqb (file_extension f) (lit ".txt") then
    let extracted_text :=
      match decode_utf8 f with
      | Some t => t
      | None =>
          match decode_big5_ignore f with
          | Some t => t
          | None => decode_utf8_ignore f
          end
      end in
    Some (strip extracted_text)
  else if str_eqb (file_extension f) (lit ".docx") then
    match docx_paragraphs f with
    | Some paragraphs => Some (strip (join [NL] paragraphs))
    | None => None
    end
  else if str_eqb (file_extension f) (lit ".pdf") then
    match pdf f with
    | PdfReadError _ => None
    | PdfOtherError _ => None
    | Encrypted => None
    | Pages texts => Some (strip (join [NL] (filter truthy texts)))
    end
  else None.

End Extract.

Import Extract.

(** ** What the loop of the handler does besides its results *)

Module Trace.

Definition API_CALL_DELAY : Z := 2.

Inductive event : Type :=
| StatusText (chunk_num total_chunks : nat)  (* status_text.text *)
| GenerateContent (full_prompt : str)        (* model.generate_content *)
| ApiError (e : str)                         (* st.error in translate_text *)
| ChunkError (chunk_num : nat)               (* st.error in the loop *)
| Progress (chunk_num total_chunks : nat)    (* progress_bar.progress *)
| Sleep (seconds : Z).                       (* time.sleep *)

(** The calls [translate_text] makes, in order. *)
Definition translate_text_events (api : str -> api_result)
    (text_to_translate : str) : list event :=
  if negb (truthy text_to_translate) then []
  else
    let full_prompt := fixed_instruction_prompt ++ SEP ++ text_to_translate in
    GenerateContent full_prompt ::
    match api full_prompt with
    | Stream _ => []
    | Raises e => [ApiError e]
    end.

(** One turn of the loop (source lines 274-295). *)
Definition turn_events (api : nat -> str -> api_result)
    (total_chunks i : nat) (chunk : str) : list event :=
  let chunk_num := (i + 1)%nat in
  [StatusText chunk_num total_chunks] ++
  translate_text_events (api i) chunk ++
  (if is_success (translate_text (api i) chunk) then []
   else [ChunkError chunk_num]) ++
  [Progress chunk_num total_chunks] ++
  (if (chunk_num <? total_chunks)%nat then [Sleep API_CALL_DELAY] else []).

Fixpoint loop_events (api : nat -> str -> api_result)
    (total_chunks i : nat) (text_chunks : list str) : list event :=
  match text_chunks with
  | [] => []
  | chunk :: rest =>
      turn_events api total_chunks i chunk ++
      loop_events api total_chunks (S i) rest
  end.

(** The whole loop, with [total_chunks = len(text_chunks)]. *)
Definition handler_loop_events (api : nat -> str -> api_result)
    (text_chunks : list str) : list event :=
  loop_events api (List.length text_chunks) 0 text_chunks.

Definition is_sleep (e : event) : bool :=
  match e with
  | Sleep _ => true
  | _ => false
  end.

(** The prompt of an API call, nothing for the other events. *)
Definition prompts (e : event) : list str :=
  match e with
  | GenerateContent full_prompt => [full_prompt]
  | _ => []
  end.

End Trace.

Import Trace.

(** ** Sample inputs *)

Module Samples.

(** Scenario 2 of the specification: two paragraphs of nine characters. *)
Definition two_paragraphs : str := lit "Para one." ++ SEP ++ lit "Para two.".

(** A paragraph of eleven characters. *)
Definition eleven : str := lit "abcdefghijk".

(** A first paragraph of [MAX_CHARS_PER_CHUNK - 1] characters. *)
Definition nearly_full : str := repeat 97%N 2499.

(** A transform that upper-cases the chunk [x] and fails on the others. *)
Definition sample_transform (i : nat) (chunk : str) : option str :=
  if starts_with (lit "x") chunk then Some (lit "X") else None.

(** An API whose reply happens to quote the error tag. *)
Definition quoting_api (i : nat) (prompt : str) : api_result :=
  Stream [Some (lit "see " ++ ERROR_TAG ++ lit " above")].

(** An API that raises on every call. *)
Definition failing_api (i : nat) (prompt : str) : api_result :=
  Raises (lit "timeout").

(** A text that fits in one chunk. *)
Definition short_text : str := lit "Hello" ++ SEP ++ lit "world.".

(** A pdf of three pages, the second without text. *)
Definition three_pages : upload :=
  mk_upload (lit ".pdf") None None [] None
    (Pages [lit " one"; []; lit "three "]).

End Samples.

Import Samples.

(* ================================================================== *)
(** * Part II: properties                                               *)
(* ================================================================== *)

(** ** Examples of the specification, run on the code *)

Example split_hello :
  split_text_into_chunks 0 (lit "Hello world.") 2500 = Some [lit "Hello world."].
Proof. reflexivity. Qed.

(** Scenario 3: five thousand characters in one paragraph. *)
Example split_five_thousand :
  split_text_into_chunks 2 (repeat 65%N 5000) 2500 =
  Some [repeat 65%N 2500; repeat 65%N 2500].
Proof. vm_compute. reflexivity. Qed.

(** Scenario 5: the empty text. *)
Example split_empty : split_text_into_chunks 0 [] 2500 = Some [].
Proof. reflexivity. Qed.

(** Scenario 4: the second chunk fails, the first is kept. *)
Example process_x_y :
  translated_chunks (process sample_transform [lit "x"; lit "y"]) =
  [lit "X"; failure_marker 2 UNKNOWN_ERROR].
Proof. reflexivity. Qed.

(** [str.split] on runs of newlines. *)
Example split_nn_three_newlines :
  split_nn (lit "a" ++ [NL; NL; NL] ++ lit "b") = [lit "a"; NL :: lit "b"].
Proof. reflexivity. Qed.

(** ** Lengths, truthiness and slices *)

Section StrFacts.

Lemma len_nonneg (s : str) : 0 <= len s.
Proof. unfold len. lia. Qed.

Lemma len_nil : len [] = 0.
Proof. reflexivity. Qed.

Lemma len_cons (c : char) (s : str) : len (c :: s) = len s + 1.
Proof. unfold len. cbn [List.length]. lia. Qed.

Lemma len_app (s t : str) : len (s ++ t) = len s + len t.
Proof. unfold len. rewrite length_app. lia. Qed.

Lemma len_SEP : len SEP = 2.
Proof. reflexivity. Qed.

Lemma truthy_true (s : str) : truthy s = true <-> 0 < len s.
Proof.
  destruct s as [|c s]; cbn [truthy].
  - rewrite len_nil. split; [discriminate | lia].
  - rewrite len_cons. pose proof (len_nonneg s). split; [lia | reflexivity].
Qed.

Lemma truthy_false (s : str) : truthy s = false <-> s = [].
Proof. destruct s; cbn; split; congruence. Qed.

Lemma len_zero (s : str) : len s = 0 -> s = [].
Proof.
  destruct s as [|c s]; [reflexivity|].
  rewrite len_cons. pose proof (len_nonneg s). lia.
Qed.

Lemma clamp_inside (n i : Z) : 0 <= i <= n -> clamp_index n i = i.
Proof.
  intros H. unfold clamp_index.
  destruct (Z.ltb_spec i 0); lia.
Qed.

(** A slice between two positions of the string, in order. *)
Lemma slice_inside (s : str) (a b : Z) :
  0 <= a <= b -> b <= len s ->
  slice s a b = firstn (Z.to_nat (b - a)) (skipn (Z.to_nat a) s).
Proof.
  intros Hab Hb. unfold slice.
  rewrite !clamp_inside by lia. reflexivity.
Qed.

Lemma len_slice (s : str) (a b : Z) :
  0 <= a <= b -> b <= len s -> len (slice s a b) = b - a.
Proof.
  intros Hab Hb. rewrite slice_inside by assumption.
  unfold len in *. rewrite length_firstn, length_skipn. lia.
Qed.

Lemma slice_then_rest (s : str) (a b : Z) :
  0 <= a <= b -> b <= len s ->
  slice s a b ++ skipn (Z.to_nat b) s = skipn (Z.to_nat a) s.
Proof.
  intros Hab Hb. rewrite slice_inside by assumption.
  replace (Z.to_nat b) with (Z.to_nat (b - a) + Z.to_nat a)%nat by lia.
  rewrite <- skipn_skipn. apply firstn_skipn.
Qed.

Lemma skipn_all_len (s : str) : skipn (Z.to_nat (len s)) s = [].
Proof. unfold len. rewrite Nat2Z.id. apply skipn_all. Qed.

End StrFacts.

(** ** The forced-splitting loop *)

Section WhileSlices.

Variable paragraph : str.
Variable max_chars : Z.

(** The recording loop only appends to what it was given. *)
Lemma record_from_acc (fuel : nat) (acc : list str) (start : Z) :
  while_slices fuel record paragraph max_chars acc start =
  option_map (app acc)
    (while_slices fuel record paragraph max_chars [] start).
Proof.
  revert acc start.
  induction fuel as [|fuel IH]; intros acc start; cbn [while_slices].
  - destruct (start <? len paragraph); cbn; [reflexivity|].
    now rewrite app_nil_r.
  - destruct (start <? len paragraph); cbn [option_map].
    + rewrite IH, (IH (record [] _)).
      destruct (while_slices fuel record paragraph max_chars [] _) as [sl|];
        cbn; [|reflexivity].
      unfold record. now rewrite <- app_assoc.
    + now rewrite app_nil_r.
Qed.

(** Whatever the body, the loop folds it over the slices the recording
    loop cuts. *)
Lemma while_slices_fold {S : Type} (body : S -> str -> S) (fuel : nat)
    (st : S) (start : Z) :
  while_slices fuel body paragraph max_chars st start =
  option_map (fun sl => fold_left body sl st)
    (while_slices fuel record paragraph max_chars [] start).
Proof.
  revert st start.
  induction fuel as [|fuel IH]; intros st start; cbn [while_slices].
  - destruct (start <? len paragraph); reflexivity.
  - destruct (start <? len paragraph); [|reflexivity].
    rewrite IH, (record_from_acc fuel (record [] _)).
    destruct (while_slices fuel record paragraph max_chars [] _) as [sl|];
      reflexivity.
Qed.

Hypothesis max_pos : 1 <= max_chars.

(** Progress: each turn moves [start] forward, and not past the end. *)
Lemma slice_end_progress (start : Z) :
  0 <= start < len paragraph ->
  start < slice_end paragraph max_chars start <= len paragraph.
Proof. unfold slice_end. lia. Qed.

Lemma count_step (n : Z) :
  max_chars <= n ->
  slice_count max_chars n = slice_count max_chars (n - max_chars) + 1.
Proof.
  intros H. unfold slice_count.
  replace (n + max_chars - 1)
    with (n - max_chars + max_chars - 1 + 1 * max_chars) by lia.
  rewrite Z.div_add by lia. reflexivity.
Qed.

Lemma count_last (n : Z) : 0 < n <= max_chars -> slice_count max_chars n = 1.
Proof.
  intros H. unfold slice_count. symmetry.
  apply (Z.div_unique_pos _ _ 1 (n - 1)); lia.
Qed.

Lemma count_zero : slice_count max_chars 0 = 0.
Proof. unfold slice_count. apply Z.div_small. lia. Qed.

(** With enough fuel the loop ends, and its slices are the consecutive
    windows of width [max_chars] from [start] on. *)
Lemma recorded_slices (fuel : nat) (start : Z) :
  0 <= start <= len paragraph ->
  (Z.to_nat (len paragraph - start) <= fuel)%nat ->
  exists sl,
    while_slices fuel record paragraph max_chars [] start = Some sl /\
    concat sl = skipn (Z.to_nat start) paragraph /\
    Forall (fun s => 1 <= len s <= max_chars) sl /\
    Z.of_nat (List.length sl) = slice_count max_chars (len paragraph - start) /\
    (forall i, (i < List.length sl)%nat ->
       nth i sl [] =
       slice paragraph (start + Z.of_nat i * max_chars)
         (Z.min (start + (Z.of_nat i + 1) * max_chars) (len paragraph))).
Proof.
  revert start.
  induction fuel as [|fuel IH]; intros start Hs Hf; cbn [while_slices].
  - assert (start = len paragraph) as -> by lia.
    rewrite Z.ltb_irrefl. exists []. rewrite skipn_all_len, Z.sub_diag.
    repeat split; auto using count_zero. cbn. intros i Hi. lia.
  - destruct (Z.ltb_spec start (len paragraph)) as [Hlt|Hge].
    + pose proof (slice_end_progress start ltac:(lia)) as Hp.
      set (e := slice_end paragraph max_chars start) in *.
      destruct (IH e ltac:(lia) ltac:(lia)) as (sl & Hrun & Hcat & Hall & Hlen & Hnth).
      rewrite (record_from_acc fuel (record [] _)), Hrun. cbn [option_map].
      exists (slice paragraph start e :: sl). unfold record. cbn [app].
      split; [reflexivity|]. split; [|split; [|split]].
      * cbn [concat]. rewrite Hcat. apply slice_then_rest; lia.
      * constructor; [|assumption].
        rewrite len_slice by lia. subst e. unfold slice_end in *. lia.
      * cbn [List.length]. rewrite Nat2Z.inj_succ, Hlen.
        subst e. unfold slice_end in *.
        destruct (Z.le_ge_cases (start + max_chars) (len paragraph)) as [Hle|Hgt].
        -- rewrite Z.min_l by lia.
           rewrite (count_step (len paragraph - start)) by lia.
           replace (len paragraph - start - max_chars)
             with (len paragraph - (start + max_chars)) by lia.
           lia.
        -- rewrite Z.min_r by lia. rewrite Z.sub_diag, count_zero.
           rewrite count_last by lia. lia.
      * intros [|i] Hi.
        -- cbn [nth]. f_equal; subst e; unfold slice_end; f_equal; lia.
        -- cbn [nth List.length] in *. rewrite Hnth by lia.
           assert (sl <> []) as Hne by (intros ->; cbn in Hi; lia).
           assert (e = start + max_chars) as He.
           { subst e. unfold slice_end in *.
             destruct (Z.le_ge_cases (start + max_chars) (len paragraph)) as [Hle|Hgt];
               [lia|].
             exfalso. rewrite Z.min_r in Hlen by lia.
             rewrite Z.sub_diag, count_zero in Hlen.
             destruct sl; [congruence | cbn in Hlen; lia]. }
           rewrite He. f_equal; [lia | f_equal; lia].
    + assert (start = len paragraph) as -> by lia.
      exists []. rewrite skipn_all_len, Z.sub_diag.
      repeat split; auto using count_zero. cbn. intros i Hi. lia.
Qed.

End WhileSlices.

(** ** Paragraphs and content *)

Section Paragraphs.

(** Induction two characters at a time, the way [split_nn] reads. *)
Lemma str_ind2 (P : str -> Prop) :
  P [] ->
  (forall c, P [c]) ->
  (forall c d s, P s -> P (d :: s) -> P (c :: d :: s)) ->
  forall s, P s.
Proof.
  intros H0 H1 H2 s.
  enough (P s /\ forall c, P (c :: s)) by tauto.
  induction s as [|d s [IHs IHc]]; split; auto.
Qed.

(** [split_nn] read from the left. *)
Lemma split_nn_cons (c : char) (s : str) :
  split_nn (c :: s) =
  if is_nl c && starts_nl s then [] :: split_nn (tl s)
  else match split_nn s with
       | p :: ps => (c :: p) :: ps
       | [] => [[c]]
       end.
Proof.
  destruct s as [|d s]; [|reflexivity].
  cbn [starts_nl]. rewrite andb_false_r. reflexivity.
Qed.

Lemma split_nn_not_nil (s : str) : split_nn s <> [].
Proof.
  destruct s as [|c s]; [discriminate|].
  rewrite split_nn_cons.
  destruct (is_nl c && starts_nl s); [discriminate|].
  destruct (split_nn s); discriminate.
Qed.

(** No paragraph is longer than the text. *)
Lemma split_nn_length (s : str) :
  Forall (fun p => (List.length p <= List.length s)%nat) (split_nn s).
Proof.
  induction s as [| c | c d s IH1 IH2] using str_ind2.
  - constructor; [cbn; lia | constructor].
  - constructor; [cbn; lia | constructor].
  - rewrite split_nn_cons. cbn [starts_nl tl].
    destruct (is_nl c && is_nl d).
    + constructor; [cbn; lia|].
      eapply Forall_impl; [|exact IH1]. cbn. intros; lia.
    + destruct (split_nn (d :: s)) as [|p ps] eqn:E.
      * constructor; [cbn; lia | constructor].
      * inversion IH2; subst. constructor; [cbn in *; lia|].
        eapply Forall_impl; [|eassumption]. cbn. intros; lia.
Qed.

Lemma is_nl_true (c : char) : is_nl c = true -> c = NL.
Proof. unfold is_nl. apply N.eqb_eq. Qed.

Lemma content_nil : content [] = [].
Proof. reflexivity. Qed.

(** [content] read from the left: a separator is dropped, any other
    character is kept. *)
Lemma content_cons (c : char) (s : str) :
  content (c :: s) =
  if is_nl c && starts_nl s then content (tl s) else c :: content s.
Proof.
  unfold content. rewrite split_nn_cons.
  destruct (is_nl c && starts_nl s); [reflexivity|].
  destruct (split_nn s); reflexivity.
Qed.

Lemma content_keep (c : char) (s : str) :
  is_nl c && starts_nl s = false -> content (c :: s) = c :: content s.
Proof. intros H. rewrite content_cons, H. reflexivity. Qed.

(** A separator put anywhere in a text does not change its content. *)
Lemma content_insert_sep (x y : str) :
  content (x ++ SEP ++ y) = content (x ++ y).
Proof.
  induction x as [| c | c d x IH1 IH2] using str_ind2; cbn [app SEP].
  - rewrite content_cons. reflexivity.
  - rewrite content_cons. cbn [starts_nl tl].
    replace (is_nl NL) with true by reflexivity. rewrite andb_true_r.
    destruct (is_nl c) eqn:Ec.
    + apply is_nl_true in Ec. subst c. reflexivity.
    + rewrite (content_cons NL). cbn [starts_nl tl].
      symmetry. apply content_keep. now rewrite Ec.
  - rewrite !(content_cons c). cbn [starts_nl tl].
    destruct (is_nl c && is_nl d); [exact IH1|].
    f_equal. exact IH2.
Qed.

(** Appending to a text or to its content gives the same content. *)
Lemma content_app_l (a p : str) :
  content (a ++ p) = content (content a ++ p).
Proof.
  induction a as [| c | c d a IH1 IH2] using str_ind2.
  - reflexivity.
  - reflexivity.
  - cbn [app]. rewrite !(content_cons c). cbn [starts_nl tl].
    destruct (is_nl c && is_nl d) eqn:E; [exact IH1|].
    change (d :: a ++ p) with ((d :: a) ++ p). rewrite IH2.
    cbn [app]. symmetry. apply content_keep.
    destruct (is_nl c); [|reflexivity]. cbn [andb] in *.
    rewrite content_keep by (now rewrite E). exact E.
Qed.

Lemma content_idem (s : str) : content (content s) = content s.
Proof.
  pose proof (content_app_l s []) as H.
  rewrite !app_nil_r in H. now symmetry.
Qed.

Lemma content_congr (a b p : str) :
  content a = content b -> content (a ++ p) = content (b ++ p).
Proof.
  intros H. rewrite (content_app_l a), (content_app_l b), H. reflexivity.
Qed.

(** Joining with the separator or with nothing: same content. *)
Lemma content_join (x : str) (l : list str) :
  content (x ++ join SEP l) = content (x ++ concat l).
Proof.
  revert x. induction l as [|y l IH]; intros x; [reflexivity|].
  destruct l as [|z l].
  - cbn. now rewrite app_nil_r.
  - change (join SEP (y :: z :: l)) with (y ++ SEP ++ join SEP (z :: l)).
    rewrite app_assoc, content_insert_sep, IH.
    cbn [concat]. now rewrite <- app_assoc.
Qed.

End Paragraphs.

(** ** Fuel *)

Section Fuel.

(** More fuel does not change a result. *)
Lemma while_slices_more_fuel {S : Type} (body : S -> str -> S)
    (paragraph : str) (max_chars : Z) (fuel fuel' : nat) (st r : S)
    (start : Z) :
  (fuel <= fuel')%nat ->
  while_slices fuel body paragraph max_chars st start = Some r ->
  while_slices fuel' body paragraph max_chars st start = Some r.
Proof.
  revert fuel' st start.
  induction fuel as [|fuel IH]; intros fuel' st start Hle; cbn [while_slices].
  - destruct fuel'; cbn [while_slices];
      destruct (start <? len paragraph); congruence.
  - destruct fuel' as [|fuel']; [lia|]. cbn [while_slices].
    destruct (start <? len paragraph); [|congruence].
    apply IH. lia.
Qed.

Lemma step_more_fuel (max_chars : Z) (fuel fuel' : nat) (st r : state)
    (paragraph : str) :
  (fuel <= fuel')%nat ->
  step fuel max_chars st paragraph = Some r ->
  step fuel' max_chars st paragraph = Some r.
Proof.
  unfold step, force_split. intros Hle.
  destruct (len paragraph >? max_chars); [|congruence].
  now apply while_slices_more_fuel.
Qed.

Lemma for_paragraphs_more_fuel (max_chars : Z) (fuel fuel' : nat)
    (paragraphs : list str) (st r : state) :
  (fuel <= fuel')%nat ->
  for_paragraphs fuel max_chars st paragraphs = Some r ->
  for_paragraphs fuel' max_chars st paragraphs = Some r.
Proof.
  intros Hle. revert st.
  induction paragraphs as [|p ps IH]; intros st; cbn [for_paragraphs];
    [congruence|].
  destruct (step fuel max_chars st p) as [st'|] eqn:E; [|discriminate].
  rewrite (step_more_fuel _ _ _ _ _ _ Hle E). apply IH.
Qed.

Lemma split_more_fuel (text : str) (max_chars : Z) (fuel fuel' : nat)
    (chunks : list str) :
  (fuel <= fuel')%nat ->
  split_text_into_chunks fuel text max_chars = Some chunks ->
  split_text_into_chunks fuel' text max_chars = Some chunks.
Proof.
  unfold split_text_into_chunks. intros Hle.
  destruct (for_paragraphs fuel _ _ _) as [st|] eqn:E; [|discriminate].
  now rewrite (for_paragraphs_more_fuel _ _ _ _ _ _ Hle E).
Qed.

Lemma for_paragraphs_app (max_chars : Z) (fuel : nat) (ps qs : list str)
    (st : state) :
  for_paragraphs fuel max_chars st (ps ++ qs) =
  match for_paragraphs fuel max_chars st ps with
  | Some st' => for_paragraphs fuel max_chars st' qs
  | None => None
  end.
Proof.
  revert st. induction ps as [|p ps IH]; intros st; cbn [app for_paragraphs];
    [reflexivity|].
  destruct (step fuel max_chars st p); [apply IH | reflexivity].
Qed.

End Fuel.

(** ** Invariants of the chunker *)

Section Invariant.

Variable max_chars : Z.
Hypothesis max_pos : 1 <= max_chars.

(** [Inv st done]: a property of the accumulators once the characters
    [done] have been read. *)
Variable Inv : state -> str -> Prop.

Hypothesis Inv_slice : forall st done s,
  Inv st done -> 1 <= len s <= max_chars ->
  Inv (place_slice max_chars st s) (done ++ s).

Hypothesis Inv_paragraph : forall st done p,
  Inv st done -> len p <= max_chars ->
  Inv (place_paragraph max_chars st p) (done ++ p).

Lemma Inv_fold_slices (sl : list str) (st : state) (done : str) :
  Inv st done ->
  Forall (fun s => 1 <= len s <= max_chars) sl ->
  Inv (fold_left (place_slice max_chars) sl st) (done ++ concat sl).
Proof.
  revert st done. induction sl as [|s sl IH]; intros st done HI Hall.
  - cbn. now rewrite app_nil_r.
  - inversion Hall; subst. cbn [fold_left concat].
    rewrite app_assoc. apply IH; auto.
Qed.

Lemma Inv_step (fuel : nat) (st : state) (done p : str) :
  Inv st done -> (List.length p <= fuel)%nat ->
  exists st', step fuel max_chars st p = Some st' /\ Inv st' (done ++ p).
Proof.
  intros HI Hf. unfold step.
  destruct (Z.gtb_spec (len p) max_chars) as [Hgt|Hle].
  - unfold force_split. rewrite while_slices_fold.
    destruct (recorded_slices p max_chars max_pos fuel 0)
      as (sl & Hrun & Hcat & Hall & _).
    + pose proof (len_nonneg p). lia.
    + unfold len. lia.
    + rewrite Hrun. cbn [option_map]. eexists. split; [reflexivity|].
      cbn in Hcat. rewrite <- Hcat. now apply Inv_fold_slices.
  - eexists. split; [reflexivity|]. now apply Inv_paragraph.
Qed.

Lemma Inv_for_paragraphs (fuel : nat) (ps : list str) (st : state)
    (done : str) :
  Inv st done ->
  Forall (fun p => (List.length p <= fuel)%nat) ps ->
  exists st', for_paragraphs fuel max_chars st ps = Some st' /\
              Inv st' (done ++ concat ps).
Proof.
  revert st done. induction ps as [|p ps IH]; intros st done HI Hall.
  - exists st. cbn. now rewrite app_nil_r.
  - inversion Hall; subst. cbn [for_paragraphs concat].
    destruct (Inv_step fuel st done p HI) as (st1 & -> & HI1); [assumption|].
    rewrite app_assoc. now apply IH.
Qed.

(** The whole function: it returns, and the invariant holds of the
    accumulators it finishes with. *)
Lemma Inv_split (fuel : nat) (text : str) :
  Inv ([], []) [] ->
  (enough text <= fuel)%nat ->
  exists st,
    split_text_into_chunks fuel text max_chars = Some (finish st) /\
    Inv st (content text).
Proof.
  intros H0 Hf. unfold split_text_into_chunks.
  destruct (Inv_for_paragraphs fuel (split_nn text) ([], []) [] H0)
    as (st & -> & HI).
  - eapply Forall_impl; [|apply split_nn_length].
    cbn. unfold enough in Hf. intros; lia.
  - exists st. split; [reflexivity | exact HI].
Qed.

End Invariant.

(** ** The placing steps, case by case *)

Ltac placing st :=
  destruct st as [chunks current_chunk];
  unfold place_slice, place_paragraph;
  repeat match goal with
    | |- context [?a <=? ?b] => destruct (Z.leb_spec a b)
    | |- context [?a >=? ?b] => destruct (Z.geb_spec a b)
    | |- context [truthy ?s] =>
        let E := fresh "E" in
        destruct (truthy s) eqn:E;
        [apply truthy_true in E | apply truthy_false in E; subst s]
    end.

Section Placing.

Variable max_chars : Z.

Lemma concat_snoc (l : list str) (x : str) : concat (l ++ [x]) = concat l ++ x.
Proof. rewrite concat_app. cbn. now rewrite app_nil_r. Qed.

(** A slice is put after what is held, with a separator or without. *)
Lemma flat_place_slice (st : state) (s : str) :
  flat (place_slice max_chars st s) = flat st ++ s \/
  flat (place_slice max_chars st s) = flat st ++ SEP ++ s.
Proof.
  placing st; unfold flat; cbn [fst snd];
    rewrite ?concat_snoc, ?app_nil_r, <- ?app_assoc; auto.
Qed.

Lemma flat_place_paragraph (st : state) (p : str) :
  flat (place_paragraph max_chars st p) = flat st ++ p \/
  flat (place_paragraph max_chars st p) = flat st ++ SEP ++ p.
Proof.
  placing st; unfold flat; cbn [fst snd];
    rewrite ?concat_snoc, ?app_nil_r, <- ?app_assoc; auto.
Qed.

Lemma concat_finish (st : state) : concat (finish st) = flat st.
Proof.
  destruct st as [chunks cur]. unfold finish, flat. cbn [fst snd].
  destruct (truthy cur) eqn:E.
  - apply concat_snoc.
  - apply truthy_false in E. subst. now rewrite app_nil_r.
Qed.

Lemma sized_place_slice (st : state) (s : str) :
  sized max_chars st -> len s <= max_chars ->
  sized max_chars (place_slice max_chars st s).
Proof.
  intros [Hc Hcur] Hs. placing st; unfold sized in *; cbn [fst snd] in *;
    rewrite ?Forall_app, ?len_app, ?len_SEP, ?len_nil;
    repeat split; auto; try lia.
Qed.

Lemma sized_place_paragraph (st : state) (p : str) :
  sized max_chars st -> len p <= max_chars ->
  sized max_chars (place_paragraph max_chars st p).
Proof.
  intros [Hc Hcur] Hs. placing st; unfold sized in *; cbn [fst snd] in *;
    rewrite ?Forall_app, ?len_app, ?len_SEP, ?len_nil;
    repeat split; auto; try lia.
Qed.

Lemma sized_finish (st : state) :
  sized max_chars st -> Forall (fun chunk => len chunk <= max_chars) (finish st).
Proof.
  destruct st as [chunks cur]. intros [Hc Hcur]. unfold finish.
  cbn [fst snd] in *. destruct (truthy cur); [|assumption].
  rewrite Forall_app. auto.
Qed.

Lemma keeps_place_slice (p : str) (st : state) (s : str) :
  1 <= max_chars -> len p = max_chars ->
  keeps p st -> keeps p (place_slice max_chars st s).
Proof.
  intros Hm Hp [Hin|Hcur]; pose proof (len_nonneg s);
    placing st; unfold keeps in *; cbn [fst snd] in *; subst;
    rewrite ?in_app_iff; cbn [In]; auto; try lia.
  all: try (rewrite len_nil in *; lia).
Qed.

Lemma keeps_place_paragraph (p : str) (st : state) (q : str) :
  1 <= max_chars -> len p = max_chars ->
  keeps p st -> keeps p (place_paragraph max_chars st q).
Proof.
  intros Hm Hp [Hin|Hcur]; pose proof (len_nonneg q);
    placing st; unfold keeps in *; cbn [fst snd] in *; subst;
    rewrite ?in_app_iff; cbn [In]; auto; try lia.
  all: try (rewrite len_nil in *; lia).
Qed.

Lemma keeps_finish (p : str) (st : state) :
  1 <= max_chars -> len p = max_chars -> keeps p st -> In p (finish st).
Proof.
  destruct st as [chunks cur]. unfold keeps, finish. cbn [fst snd].
  intros Hm Hp [Hin|Hcur].
  - destruct (truthy cur); [apply in_app_iff|]; auto.
  - subst cur. destruct (truthy p) eqn:E.
    + apply in_app_iff. cbn. auto.
    + apply truthy_false in E. subst p. rewrite len_nil in Hp. lia.
Qed.

End Placing.

(** ** The chunker: size, content, termination *)

(** C3. For every text and every [max_chars >= 1] the function returns,
    and every chunk it returns has length at most [max_chars]. *)
Theorem chunk_size_bound (text : str) (max_chars : Z) (fuel : nat) :
  1 <= max_chars -> (enough text <= fuel)%nat ->
  exists chunks,
    split_text_into_chunks fuel text max_chars = Some chunks /\
    Forall (fun chunk => len chunk <= max_chars) chunks.
Proof.
  intros Hm Hf.
  destruct (Inv_split max_chars Hm (fun st _ => sized max_chars st)
              (fun st _ s H Hs => sized_place_slice max_chars st s H (proj2 Hs))
              (fun st _ p H Hp => sized_place_paragraph max_chars st p H Hp)
              fuel text) as (st & Hrun & HI).
  - split; cbn [fst snd]; [constructor | rewrite len_nil; lia].
  - exact Hf.
  - exists (finish st). split; [exact Hrun | now apply sized_finish].
Qed.

Lemma chunk_size_bound_witness :
  exists chunks,
    split_text_into_chunks 20 two_paragraphs 9 = Some chunks /\
    Forall (fun chunk => len chunk <= 9) chunks.
Proof.
  apply (chunk_size_bound two_paragraphs 9 20); [lia | vm_compute; lia].
Defined.

(** C2. For every text and every [max_chars >= 1], the chunks joined with
    the paragraph separator have the content of the text: the same
    characters in the same order once the separators are taken out of
    both. *)
Theorem lossless_round_trip (text : str) (max_chars : Z) (fuel : nat) :
  1 <= max_chars -> (enough text <= fuel)%nat ->
  exists chunks,
    split_text_into_chunks fuel text max_chars = Some chunks /\
    content (join SEP chunks) = content text.
Proof.
  intros Hm Hf.
  destruct (Inv_split max_chars Hm
              (fun st done => content (flat st) = content done))
    with (fuel := fuel) (text := text) as (st & Hrun & HI).
  - intros st done s HI _.
    destruct (flat_place_slice max_chars st s) as [-> | ->];
      rewrite ?content_insert_sep; now apply content_congr.
  - intros st done p HI _.
    destruct (flat_place_paragraph max_chars st p) as [-> | ->];
      rewrite ?content_insert_sep; now apply content_congr.
  - reflexivity.
  - exact Hf.
  - exists (finish st). split; [exact Hrun|].
    pose proof (content_join [] (finish st)) as Hj. cbn [app] in Hj.
    rewrite Hj, concat_finish, HI. apply content_idem.
Qed.

Lemma lossless_round_trip_witness :
  exists chunks,
    split_text_into_chunks 20 two_paragraphs 9 = Some chunks /\
    content (join SEP chunks) = content two_paragraphs.
Proof.
  apply (lossless_round_trip two_paragraphs 9 20); [lia | vm_compute; lia].
Defined.

(** C9. For every text and every [max_chars >= 1] the function terminates:
    one result is returned with any fuel from [enough text] on, and each
    turn of the forced-splitting loop moves [start] forward by at least one
    character without passing the end of the paragraph. *)
Theorem split_terminates (text : str) (max_chars : Z) :
  1 <= max_chars ->
  (exists chunks, forall fuel, (enough text <= fuel)%nat ->
     split_text_into_chunks fuel text max_chars = Some chunks) /\
  (forall paragraph start, 0 <= start < len paragraph ->
     start + 1 <= slice_end paragraph max_chars start <= len paragraph).
Proof.
  intros Hm. split.
  - destruct (Inv_split max_chars Hm (fun _ _ => True)
                (fun _ _ _ _ _ => I) (fun _ _ _ _ _ => I)
                (enough text) text I (le_n _)) as (st & Hrun & _).
    exists (finish st). intros fuel Hf.
    now apply (split_more_fuel text max_chars (enough text) fuel).
  - intros paragraph start Hs.
    pose proof (slice_end_progress paragraph max_chars Hm start Hs). lia.
Qed.

Lemma split_terminates_witness :
  (exists chunks, forall fuel, (enough eleven <= fuel)%nat ->
     split_text_into_chunks fuel eleven 5 = Some chunks) /\
  (forall paragraph start, 0 <= start < len paragraph ->
     start + 1 <= slice_end paragraph 5 start <= len paragraph).
Proof. apply (split_terminates eleven 5). lia. Defined.

(** C6. For a paragraph of length [L > max_chars], with [max_chars >= 1],
    the forced-splitting loop cuts exactly [ceil (L / max_chars)] slices
    (the least [n] with [L <= n * max_chars]);
    each has at most [max_chars] characters; slice [i] is the window
    [i * max_chars .. min ((i + 1) * max_chars, L)] of the paragraph, so
    the slices neither overlap nor leave a gap; their concatenation is the
    paragraph; and the loop places exactly these slices, in this order. *)
Theorem forced_slicing (paragraph : str) (max_chars : Z) :
  1 <= max_chars -> len paragraph > max_chars ->
  exists slices,
    forced_slices (List.length paragraph) max_chars paragraph = Some slices /\
    Z.of_nat (List.length slices) = slice_count max_chars (len paragraph) /\
    (Z.of_nat (List.length slices) - 1) * max_chars < len paragraph
      <= Z.of_nat (List.length slices) * max_chars /\
    Forall (fun s => 1 <= len s <= max_chars) slices /\
    concat slices = paragraph /\
    (forall i, (i < List.length slices)%nat ->
       nth i slices [] =
       slice paragraph (Z.of_nat i * max_chars)
         (Z.min ((Z.of_nat i + 1) * max_chars) (len paragraph))) /\
    (forall st, force_split (List.length paragraph) max_chars st paragraph =
                Some (fold_left (place_slice max_chars) slices st)).
Proof.
  intros Hm HL.
  destruct (recorded_slices paragraph max_chars Hm (List.length paragraph) 0)
    as (sl & Hrun & Hcat & Hall & Hlen & Hnth).
  - pose proof (len_nonneg paragraph). lia.
  - unfold len. lia.
  - exists sl. rewrite Z.sub_0_r in Hlen. cbn [Z.to_nat skipn] in Hcat.
    split; [exact Hrun|]. split; [exact Hlen|].
    split; [|split; [exact Hall | split; [exact Hcat | split]]].
    + rewrite Hlen. unfold slice_count.
      pose proof (Z.div_mod (len paragraph + max_chars - 1) max_chars).
      pose proof (Z.mod_pos_bound (len paragraph + max_chars - 1) max_chars).
      nia.
    + intros i Hi. rewrite (Hnth i Hi). reflexivity.
    + intros st. unfold force_split. rewrite while_slices_fold.
      unfold forced_slices in Hrun. rewrite Hrun. reflexivity.
Qed.

Lemma forced_slicing_witness :
  exists slices,
    forced_slices (List.length eleven) 5 eleven = Some slices /\
    Z.of_nat (List.length slices) = slice_count 5 (len eleven) /\
    (Z.of_nat (List.length slices) - 1) * 5 < len eleven
      <= Z.of_nat (List.length slices) * 5 /\
    Forall (fun s => 1 <= len s <= 5) slices /\
    concat slices = eleven /\
    (forall i, (i < List.length slices)%nat ->
       nth i slices [] =
       slice eleven (Z.of_nat i * 5) (Z.min ((Z.of_nat i + 1) * 5) (len eleven))) /\
    (forall st, force_split (List.length eleven) 5 st eleven =
                Some (fold_left (place_slice 5) slices st)).
Proof. apply (forced_slicing eleven 5); [lia | vm_compute; reflexivity]. Defined.

(** ** The chunker: paragraphs of exactly [max_chars] characters *)

(** A paragraph as long as [max_chars] takes the branch of the paragraphs
    that are not oversized, and there it cannot be merged. *)
Lemma step_exact (fuel : nat) (max_chars : Z) (st : state) (p : str) :
  len p = max_chars ->
  step fuel max_chars st p = Some (fst st ++ [snd st], p).
Proof.
  intros Hp. unfold step. destruct (Z.gtb_spec (len p) max_chars); [lia|].
  destruct st as [chunks cur]. unfold place_paragraph. cbn [fst snd].
  pose proof (len_nonneg cur).
  destruct (Z.leb_spec (len cur + len p + 2) max_chars); [lia | reflexivity].
Qed.

(** C8. For every text and every [max_chars >= 1], a paragraph of exactly
    [max_chars] characters is not force-split: whatever is held, it goes
    whole through the branch of the paragraphs that fit, with no turn of
    the forced-splitting loop, and it is one of the chunks returned. *)
Theorem exact_paragraph_kept_whole (text p : str) (max_chars : Z) (fuel : nat) :
  1 <= max_chars -> (enough text <= fuel)%nat ->
  In p (split_nn text) -> len p = max_chars ->
  (forall st, step 0 max_chars st p =
              Some (place_paragraph max_chars st p) /\
              place_paragraph max_chars st p = (fst st ++ [snd st], p)) /\
  exists chunks,
    split_text_into_chunks fuel text max_chars = Some chunks /\ In p chunks.
Proof.
  intros Hm Hf Hin Hp. split.
  - intros st. pose proof (step_exact 0 max_chars st p Hp) as Hs.
    unfold step in *. destruct (len p >? max_chars) eqn:E.
    + apply Z.gtb_lt in E. lia.
    + split; [reflexivity | congruence].
  - destruct (in_split _ _ Hin) as (ps1 & ps2 & Hsplit).
    assert (Forall (fun q => (List.length q <= fuel)%nat) (split_nn text)) as Hall.
    { eapply Forall_impl; [|apply split_nn_length].
      cbn. unfold enough in Hf. intros; lia. }
    rewrite Hsplit in Hall. apply Forall_app in Hall. destruct Hall as [H1 H2].
    apply Forall_cons_iff in H2. destruct H2 as [_ H3].
    destruct (Inv_for_paragraphs max_chars Hm (fun _ _ => True)
                (fun _ _ _ _ _ => I) (fun _ _ _ _ _ => I)
                fuel ps1 ([], []) [] I H1) as (st1 & Hrun1 & _).
    destruct (Inv_for_paragraphs max_chars Hm (fun st _ => keeps p st)
                (fun st _ s H _ => keeps_place_slice max_chars p st s Hm Hp H)
                (fun st _ q H _ => keeps_place_paragraph max_chars p st q Hm Hp H)
                fuel ps2 (fst st1 ++ [snd st1], p) [])
      as (st2 & Hrun2 & Hk); [right; reflexivity | exact H3 |].
    exists (finish st2). split.
    + unfold split_text_into_chunks.
      rewrite Hsplit, for_paragraphs_app, Hrun1. cbn [for_paragraphs].
      rewrite step_exact by exact Hp. rewrite Hrun2. reflexivity.
    + now apply (keeps_finish max_chars).
Qed.

Lemma exact_paragraph_kept_whole_witness :
  (forall st, step 0 9 st (lit "Para two.") =
              Some (place_paragraph 9 st (lit "Para two.")) /\
              place_paragraph 9 st (lit "Para two.") =
              (fst st ++ [snd st], lit "Para two.")) /\
  exists chunks,
    split_text_into_chunks 20 two_paragraphs 9 = Some chunks /\
    In (lit "Para two.") chunks.
Proof.
  apply (exact_paragraph_kept_whole two_paragraphs (lit "Para two.") 9 20);
    [lia | vm_compute; lia | vm_compute; auto | reflexivity].
Defined.

(** ** The chunker: empty chunks *)

(** C1 fails on the code. The flush of the branch for paragraphs that fit
    has no test of [current_chunk]: with nothing held and a paragraph of
    [max_chars - 1] or [max_chars] characters, the empty string is added to
    the chunks. This is so for the four-letter text under [max_chars = 5],
    for scenario 2 of the specification, and under the default
    [MAX_CHARS_PER_CHUNK] for a first paragraph of 2499 characters. *)
Theorem unguarded_flush_emits_empty_chunk :
  split_text_into_chunks 0 (lit "abcd") 5 = Some [[]; lit "abcd"] /\
  split_text_into_chunks 0 two_paragraphs 9 =
    Some [[]; lit "Para one."; lit "Para two."] /\
  split_text_into_chunks 0 nearly_full MAX_CHARS_PER_CHUNK =
    Some [[]; nearly_full].
Proof. repeat split; vm_compute; reflexivity. Qed.

(** ** The chunker: empty and whitespace-only texts *)

Lemma lstrip_all_space (s : str) : forallb is_space s = true -> lstrip s = [].
Proof.
  induction s as [|c s IH]; cbn [forallb lstrip]; [reflexivity|].
  intros H. apply andb_true_iff in H. destruct H as [-> H]. auto.
Qed.

Lemma strip_all_space (s : str) : forallb is_space s = true -> strip s = [].
Proof. intros H. unfold strip. rewrite (lstrip_all_space s H). reflexivity. Qed.

Lemma for_paragraphs_all_empty (fuel : nat) (max_chars : Z) (ps : list str) :
  2 <= max_chars -> Forall (fun p => p = []) ps ->
  for_paragraphs fuel max_chars ([], []) ps = Some ([], []).
Proof.
  intros Hm Hall. induction Hall as [|p ps -> _ IH]; [reflexivity|].
  cbn [for_paragraphs]. unfold step, place_paragraph.
  rewrite len_nil. destruct (Z.gtb_spec 0 max_chars); [lia|].
  destruct (Z.leb_spec (0 + 0 + 2) max_chars); [|lia].
  cbn [truthy]. exact IH.
Qed.

(** C4 as stated fails on the code: a text of one space is whitespace-only
    and comes back as one chunk. *)
Lemma whitespace_only_text_is_chunked :
  ~ (forall text max_chars fuel,
       1 <= max_chars -> forallb is_space text = true ->
       split_text_into_chunks fuel text max_chars = Some []).
Proof.
  intros H. specialize (H (lit " ") 2500 0%nat).
  cbv in H. specialize (H ltac:(discriminate) eq_refl). discriminate.
Qed.

(** C4, amended. For [max_chars >= 2], a text whose paragraphs are all
    empty (the empty text, or separators only) gives no chunk. A
    whitespace-only text never reaches the chunker: the handler tests
    [extracted_text.strip()] first and takes its branch for a text without
    content. *)
Theorem empty_input_condition (text : str) (max_chars : Z) (fuel : nat) :
  2 <= max_chars ->
  split_text_into_chunks fuel [] max_chars = Some [] /\
  (Forall (fun p => p = []) (split_nn text) ->
   split_text_into_chunks fuel text max_chars = Some []) /\
  (forallb is_space text = true -> dispatch fuel (Some text) = NoText).
Proof.
  intros Hm. split; [|split].
  - unfold split_text_into_chunks. cbn [split_nn].
    rewrite for_paragraphs_all_empty; [reflexivity | lia | repeat constructor].
  - intros Hall. unfold split_text_into_chunks.
    rewrite for_paragraphs_all_empty by (lia || assumption). reflexivity.
  - intros Hs. unfold dispatch. rewrite (strip_all_space text Hs). reflexivity.
Qed.

Lemma empty_input_condition_witness :
  split_text_into_chunks 0 [] 2500 = Some [] /\
  split_text_into_chunks 0 (SEP ++ SEP) 2500 = Some [] /\
  dispatch 0 (Some (lit " ")) = NoText.
Proof.
  split; [|split].
  - apply (proj1 (empty_input_condition [] 2500 0 ltac:(lia))).
  - apply (proj1 (proj2 (empty_input_condition (SEP ++ SEP) 2500 0 ltac:(lia)))).
    vm_compute. repeat constructor.
  - apply (proj2 (proj2 (empty_input_condition (lit " ") 2500 0 ltac:(lia)))).
    reflexivity.
Defined.

(** ** The chunker: a [max_chars] below one *)

(** With [max_chars <= 0] the forced-splitting loop never ends on a
    paragraph that is not empty: [start] does not move forward. *)
Lemma while_slices_stuck {S : Type} (body : S -> str -> S) (fuel : nat)
    (paragraph : str) (max_chars : Z) (st : S) (start : Z) :
  max_chars <= 0 -> start <= 0 -> 0 < len paragraph ->
  while_slices fuel body paragraph max_chars st start = None.
Proof.
  intros Hm. revert st start.
  induction fuel as [|fuel IH]; intros st start Hs Hl; cbn [while_slices];
    destruct (Z.ltb_spec start (len paragraph)); try lia; [reflexivity|].
  apply IH; [unfold slice_end|]; lia.
Qed.

Lemma step_stuck (fuel : nat) (max_chars : Z) (st : state) (p : str) :
  max_chars < 1 -> p <> [] -> step fuel max_chars st p = None.
Proof.
  intros Hm Hp.
  assert (0 < len p) as Hl.
  { destruct p as [|c p]; [congruence|].
    rewrite len_cons. pose proof (len_nonneg p). lia. }
  unfold step. destruct (Z.gtb_spec (len p) max_chars); [|lia].
  apply while_slices_stuck; lia.
Qed.

Lemma for_paragraphs_stuck (fuel : nat) (max_chars : Z) (ps : list str)
    (st : state) :
  max_chars < 1 -> Exists (fun p => p <> []) ps ->
  for_paragraphs fuel max_chars st ps = None.
Proof.
  intros Hm Hex. revert st.
  induction Hex as [p ps Hp | p ps _ IH]; intros st; cbn [for_paragraphs].
  - now rewrite step_stuck.
  - destruct (step fuel max_chars st p); [apply IH | reflexivity].
Qed.

Lemma for_paragraphs_empties (fuel : nat) (max_chars : Z) (ps : list str)
    (chunks : list str) :
  max_chars < 1 -> Forall (fun p => p = []) ps ->
  Forall (fun chunk => chunk = []) chunks ->
  exists chunks',
    for_paragraphs fuel max_chars (chunks, []) ps = Some (chunks', []) /\
    Forall (fun chunk => chunk = []) chunks'.
Proof.
  intros Hm Hall. revert chunks.
  induction Hall as [|p ps -> _ IH]; intros chunks Hc; cbn [for_paragraphs].
  - exists chunks. auto.
  - unfold step, force_split, place_paragraph. rewrite len_nil.
    destruct (Z.gtb_spec 0 max_chars).
    + destruct fuel; cbn [while_slices]; rewrite len_nil, Z.ltb_irrefl;
        now apply IH.
    + destruct (Z.leb_spec (0 + 0 + 2) max_chars); [lia|].
      apply IH. apply Forall_app. auto.
Qed.

(** C5 as stated fails on the code: a refused configuration would never
    give chunks, but with [max_chars = 0] the chunker runs on the empty
    text and returns a list of one (empty) chunk. *)
Lemma zero_max_chars_is_chunked :
  ~ (forall text max_chars fuel chunks,
       max_chars < 1 ->
       split_text_into_chunks fuel text max_chars <> Some chunks).
Proof.
  intros H. apply (H [] 0 0%nat [[]]); [lia | reflexivity].
Qed.

(** C5, amended. The code has no check of [max_chars] and no configuration
    error: the handler passes the constant [MAX_CHARS_PER_CHUNK], which is
    at least one. Called with [max_chars < 1] the chunker is not refused:
    on a text whose paragraphs are all empty it returns, and only empty
    strings; on a text with a paragraph that is not empty its
    forced-splitting loop never ends, whatever the fuel. *)
Theorem nonpositive_max_chars_not_rejected (text : str) (max_chars : Z)
    (fuel : nat) :
  max_chars < 1 ->
  1 <= MAX_CHARS_PER_CHUNK /\
  (Forall (fun p => p = []) (split_nn text) ->
   exists chunks,
     split_text_into_chunks fuel text max_chars = Some chunks /\
     Forall (fun chunk => chunk = []) chunks) /\
  (Exists (fun p => p <> []) (split_nn text) ->
   split_text_into_chunks fuel text max_chars = None).
Proof.
  intros Hm. split; [unfold MAX_CHARS_PER_CHUNK; lia | split].
  - intros Hall.
    destruct (for_paragraphs_empties fuel max_chars (split_nn text) [] Hm Hall)
      as (chunks & Hrun & Hc); [constructor|].
    exists chunks. unfold split_text_into_chunks. rewrite Hrun. auto.
  - intros Hex. unfold split_text_into_chunks.
    now rewrite for_paragraphs_stuck.
Qed.

Lemma nonpositive_max_chars_not_rejected_witness :
  1 <= MAX_CHARS_PER_CHUNK /\
  (exists chunks,
     split_text_into_chunks 7 SEP (-3) = Some chunks /\
     Forall (fun chunk => chunk = []) chunks) /\
  split_text_into_chunks 7 (lit "a") 0 = None.
Proof.
  split; [|split].
  - apply (proj1 (nonpositive_max_chars_not_rejected [] 0 0 ltac:(lia))).
  - apply (proj1 (proj2 (nonpositive_max_chars_not_rejected SEP (-3) 7 ltac:(lia)))).
    vm_compute. repeat constructor.
  - apply (proj2 (proj2 (nonpositive_max_chars_not_rejected (lit "a") 0 7 ltac:(lia)))).
    vm_compute. constructor. discriminate.
Defined.

(** ** The chunk processor *)

Section Substrings.

Lemma starts_with_iff (pat s : str) :
  starts_with pat s = true <-> exists b, s = pat ++ b.
Proof.
  revert s. induction pat as [|a pat IH]; intros s; cbn [starts_with app].
  - split; [intros _; now exists s | reflexivity].
  - destruct s as [|c s].
    + split; [discriminate | intros [b Hb]; discriminate].
    + rewrite andb_true_iff, N.eqb_eq, IH. split.
      * intros [-> [b ->]]. now exists b.
      * intros [b Hb]. injection Hb as -> ->. split; [reflexivity | now exists b].
Qed.

(** [contains pat s] is Python's [pat in s]: [pat] occurs somewhere in [s]. *)
Lemma contains_iff (pat s : str) :
  contains pat s = true <-> exists a b, s = a ++ pat ++ b.
Proof.
  induction s as [|c s IH]; cbn [contains]; rewrite orb_true_iff, starts_with_iff.
  - split.
    + intros [[b Hb] | H]; [now exists [], b | discriminate].
    + intros (a & b & H). left.
      destruct a; [now exists b | discriminate].
  - rewrite IH. split.
    + intros [[b Hb] | (a & b & ->)]; [now exists [], b | now exists (c :: a), b].
    + intros (a & b & H). destruct a as [|c' a]; [left; now exists b|].
      right. injection H as _ ->. now exists a, b.
Qed.

Lemma contains_truthy (pat s : str) :
  pat <> [] -> contains pat s = true -> truthy s = true.
Proof.
  intros Hp H. destruct s; [|reflexivity].
  apply contains_iff in H. destruct H as (a & b & H).
  destruct a, pat; try discriminate. congruence.
Qed.

End Substrings.

Section Loop.

Variable transform : nat -> str -> option str.

(** One turn of the loop adds the rendered result of its chunk and raises
    the error flag when that result is a failure. *)
Lemma loop_body_classify (st : loop_state) (i : nat) (chunk : str) :
  loop_body transform st i chunk =
  mk_loop_state
    (translated_chunks st ++ [render (classify (i + 1) (transform i chunk))])
    (errors_occurred st || is_failure (classify (i + 1) (transform i chunk))).
Proof.
  unfold loop_body, classify.
  destruct (transform i chunk) as [t|]; [|now rewrite orb_true_r].
  destruct (is_success (Some t)); cbn [render is_failure].
  - now rewrite orb_false_r.
  - now rewrite orb_true_r.
Qed.

Lemma translate_loop_spec (chunks : list str) (i : nat) (st : loop_state) :
  translate_loop transform i chunks st =
  mk_loop_state
    (translated_chunks st ++ map render (spec_process transform i chunks))
    (errors_occurred st || existsb is_failure (spec_process transform i chunks)).
Proof.
  revert i st. induction chunks as [|chunk rest IH]; intros i st;
    cbn [translate_loop spec_process map existsb].
  - rewrite app_nil_r, orb_false_r. now destruct st.
  - rewrite IH, loop_body_classify. cbn [translated_chunks errors_occurred].
    now rewrite <- app_assoc, orb_assoc.
Qed.

Lemma spec_process_length (chunks : list str) (i : nat) :
  List.length (spec_process transform i chunks) = List.length chunks.
Proof.
  revert i. induction chunks as [|chunk rest IH]; intros i; cbn; auto.
Qed.

Lemma spec_process_nth (chunks : list str) (i k : nat) (chunk : str) :
  nth_error chunks k = Some chunk ->
  nth_error (spec_process transform i chunks) k =
  Some (classify (i + k + 1) (transform (i + k) chunk)).
Proof.
  revert i k. induction chunks as [|c rest IH]; intros i k H.
  - destruct k; discriminate.
  - destruct k as [|k]; cbn [nth_error spec_process] in *.
    + injection H as ->. now rewrite Nat.add_0_r.
    + rewrite (IH (S i) k H).
      replace (S i + k)%nat with (i + S k)%nat by lia. reflexivity.
Qed.

Lemma process_nth (chunks : list str) (k : nat) (chunk : str) :
  nth_error chunks k = Some chunk ->
  nth_error (translated_chunks (process transform chunks)) k =
  Some (render (classify (k + 1) (transform k chunk))).
Proof.
  intros H. unfold process. rewrite translate_loop_spec.
  cbn [translated_chunks app]. rewrite nth_error_map.
  now rewrite (spec_process_nth chunks 0 k chunk H).
Qed.

End Loop.

Section Classification.

Lemma classify_failure (n : nat) (r : option str) :
  is_success r = false -> classify n r = Failure n (or_unknown r).
Proof.
  unfold classify. destruct r as [t|]; [|reflexivity]. now intros ->.
Qed.

Lemma classify_success (n : nat) (t : str) :
  is_success (Some t) = true -> classify n (Some t) = Translated t.
Proof. unfold classify. now intros ->. Qed.

(** The test of the loop fails exactly on [None], on the empty string and
    on a text in which the error tag occurs. *)
Lemma is_success_false_iff (r : option str) :
  is_success r = false <->
  (r = None \/ r = Some [] \/
   exists t a b, r = Some t /\ t = a ++ ERROR_TAG ++ b).
Proof.
  destruct r as [t|]; cbn [is_success].
  - rewrite andb_false_iff, negb_false_iff, truthy_false, contains_iff. split.
    + intros [-> | (a & b & ->)]; [auto|]. right. right.
      now exists (a ++ ERROR_TAG ++ b), a, b.
    + intros [H | [H | (t' & a & b & H & ->)]]; [discriminate | |].
      * injection H as ->. now left.
      * injection H as ->. right. now exists a, b.
  - split; auto.
Qed.

Lemma tagged_is_failure (t : str) :
  contains ERROR_TAG t = true ->
  is_success (Some t) = false /\ or_unknown (Some t) = t.
Proof.
  intros H. cbn [is_success or_unknown]. rewrite H.
  rewrite (contains_truthy ERROR_TAG t) by (discriminate || assumption).
  split; reflexivity.
Qed.

Lemma error_marker_tagged (e : str) : contains ERROR_TAG (error_marker e) = true.
Proof. apply contains_iff. exists [], ([32%N] ++ e ++ lit "]]"). reflexivity. Qed.

Lemma process_errors (transform : nat -> str -> option str)
    (chunks : list str) (i : nat) (chunk : str) :
  nth_error chunks i = Some chunk ->
  is_success (transform i chunk) = false ->
  errors_occurred (process transform chunks) = true.
Proof.
  intros Hn Hf. unfold process. rewrite translate_loop_spec.
  cbn [errors_occurred orb]. apply existsb_exists.
  exists (classify (i + 1) (transform i chunk)). split.
  - eapply nth_error_In. now apply (spec_process_nth transform chunks 0 i).
  - now rewrite classify_failure.
Qed.

End Classification.

(** C7. For every list of chunks and every transform, the loop keeps
    exactly one result per chunk, in the order of the chunks: the result at
    index [i] is determined by chunk [i] and by what the transform returned
    for it, whatever happened to the other chunks. When the transform
    fails on chunk [i], the result at index [i] is the failure marker with
    the number [i + 1] and the failure detail, and the loop goes on: the
    later chunks have their results too. In the handler, an API call that
    raises [e] gives the marker whose detail quotes [e]. *)
Theorem process_one_result_per_chunk
    (transform : nat -> str -> option str) (chunks : list str) :
  translated_chunks (process transform chunks) =
    map render (spec_process transform 0 chunks) /\
  List.length (translated_chunks (process transform chunks)) =
    List.length chunks /\
  (forall i chunk, nth_error chunks i = Some chunk ->
     nth_error (spec_process transform 0 chunks) i =
       Some (classify (i + 1) (transform i chunk))) /\
  (forall i chunk, nth_error chunks i = Some chunk ->
     is_success (transform i chunk) = false ->
     nth_error (spec_process transform 0 chunks) i =
       Some (Failure (i + 1) (or_unknown (transform i chunk))) /\
     nth_error (translated_chunks (process transform chunks)) i =
       Some (failure_marker (i + 1) (or_unknown (transform i chunk)))) /\
  (forall i chunk t, nth_error chunks i = Some chunk ->
     transform i chunk = Some t -> is_success (Some t) = true ->
     nth_error (translated_chunks (process transform chunks)) i = Some t) /\
  (forall api i chunk e, nth_error chunks i = Some chunk -> chunk <> [] ->
     api i (fixed_instruction_prompt ++ SEP ++ chunk) = Raises e ->
     nth_error (translated_chunks (handler_loop api chunks)) i =
       Some (failure_marker (i + 1) (error_marker e))).
Proof.
  assert (translated_chunks (process transform chunks) =
          map render (spec_process transform 0 chunks)) as Hmap.
  { unfold process. now rewrite translate_loop_spec. }
  split; [exact Hmap|]. split; [|split; [|split; [|split]]].
  - now rewrite Hmap, length_map, spec_process_length.
  - intros i chunk H. exact (spec_process_nth transform chunks 0 i chunk H).
  - intros i chunk H Hf. split.
    + rewrite (spec_process_nth transform chunks 0 i chunk H).
      cbn [Nat.add]. now rewrite classify_failure.
    + rewrite (process_nth transform chunks i chunk H).
      now rewrite classify_failure.
  - intros i chunk t H Ht Hs.
    rewrite (process_nth transform chunks i chunk H), Ht.
    now rewrite classify_success.
  - intros api i chunk e H Hc Hapi. unfold handler_loop.
    rewrite (process_nth _ chunks i chunk H). cbv beta.
    unfold translate_text. rewrite Hapi.
    destruct chunk as [|c chunk]; [congruence|]. cbn [truthy negb].
    destruct (tagged_is_failure (error_marker e) (error_marker_tagged e))
      as [Hf Hd].
    rewrite classify_failure by exact Hf. cbn [render]. now rewrite Hd.
Qed.

Lemma process_one_result_per_chunk_witness :
  translated_chunks (process sample_transform [lit "x"; lit "y"; lit "x"]) =
    [lit "X"; failure_marker 2 UNKNOWN_ERROR; lit "X"] /\
  nth_error (translated_chunks (handler_loop failing_api [lit "x"; lit "y"])) 1 =
    Some (failure_marker 2 (error_marker (lit "timeout"))).
Proof.
  split.
  - rewrite (proj1 (process_one_result_per_chunk sample_transform
                      [lit "x"; lit "y"; lit "x"])).
    reflexivity.
  - apply (proj2 (proj2 (proj2 (proj2 (proj2
             (process_one_result_per_chunk sample_transform [lit "x"; lit "y"]))))))
      with (chunk := lit "y"); [reflexivity | discriminate | reflexivity].
Defined.

(** C10. The loop takes a chunk as failed exactly when what the transform
    returned is [None], the empty string, or a text in which the tag
    ["[[翻譯錯誤:"] occurs somewhere. A failed chunk is kept as the failure
    marker with its number, and the error flag is raised; for [None] the
    detail of the marker is ["未知錯誤"]; a returned text in which the tag
    occurs is kept as a marker with that text as detail, also when the API
    call itself succeeded and its reply only quotes the tag. *)
Theorem failure_classification
    (transform : nat -> str -> option str) (chunks : list str)
    (i : nat) (chunk : str) :
  nth_error chunks i = Some chunk ->
  (is_success (transform i chunk) = false <->
     (transform i chunk = None \/ transform i chunk = Some [] \/
      exists t a b, transform i chunk = Some t /\ t = a ++ ERROR_TAG ++ b)) /\
  (is_success (transform i chunk) = false ->
     nth_error (translated_chunks (process transform chunks)) i =
       Some (failure_marker (i + 1) (or_unknown (transform i chunk))) /\
     errors_occurred (process transform chunks) = true) /\
  (is_success (transform i chunk) = true ->
     nth_error (translated_chunks (process transform chunks)) i =
       transform i chunk) /\
  (transform i chunk = None ->
     nth_error (translated_chunks (process transform chunks)) i =
       Some (failure_marker (i + 1) UNKNOWN_ERROR)) /\
  (forall t, transform i chunk = Some t -> contains ERROR_TAG t = true ->
     nth_error (translated_chunks (process transform chunks)) i =
       Some (failure_marker (i + 1) t)) /\
  (forall api parts, chunk <> [] ->
     api i (fixed_instruction_prompt ++ SEP ++ chunk) = Stream parts ->
     contains ERROR_TAG (strip (concat (map part_text parts))) = true ->
     nth_error (translated_chunks (handler_loop api chunks)) i =
       Some (failure_marker (i + 1) (strip (concat (map part_text parts)))) /\
     errors_occurred (handler_loop api chunks) = true).
Proof.
  intros H. split; [apply is_success_false_iff|].
  split; [|split; [|split; [|split]]].
  - intros Hf. split; [|now apply (process_errors transform chunks i chunk)].
    rewrite (process_nth transform chunks i chunk H).
    now rewrite classify_failure.
  - intros Hs. rewrite (process_nth transform chunks i chunk H).
    destruct (transform i chunk) as [t|]; [|discriminate].
    now rewrite classify_success.
  - intros Hn. rewrite (process_nth transform chunks i chunk H), Hn. reflexivity.
  - intros t Ht Hc. rewrite (process_nth transform chunks i chunk H), Ht.
    destruct (tagged_is_failure t Hc) as [Hf Hd].
    rewrite classify_failure by exact Hf. cbn [render]. now rewrite Hd.
  - intros api parts Hne Hapi Hc.
    assert (translate_text (api i) chunk =
            Some (strip (concat (map part_text parts)))) as Ht.
    { unfold translate_text. rewrite Hapi.
      destruct chunk; [congruence | reflexivity]. }
    destruct (tagged_is_failure _ Hc) as [Hf Hd].
    unfold handler_loop. split.
    + rewrite (process_nth _ chunks i chunk H). cbv beta. rewrite Ht.
      rewrite classify_failure by exact Hf. cbn [render]. now rewrite Hd.
    + apply (process_errors _ chunks i chunk H). cbv beta. now rewrite Ht.
Qed.

Lemma failure_classification_witness :
  nth_error (translated_chunks (process sample_transform [lit "x"; lit "y"])) 1 =
    Some (failure_marker 2 UNKNOWN_ERROR) /\
  nth_error (translated_chunks (handler_loop quoting_api [lit "x"])) 0 =
    Some (failure_marker 1 (lit "see " ++ ERROR_TAG ++ lit " above")) /\
  errors_occurred (handler_loop quoting_api [lit "x"]) = true.
Proof.
  split.
  - apply (proj1 (proj2 (proj2 (proj2
             (failure_classification sample_transform [lit "x"; lit "y"] 1
                (lit "y") eq_refl))))).
    reflexivity.
  - apply (proj2 (proj2 (proj2 (proj2 (proj2
             (failure_classification sample_transform [lit "x"] 0
                (lit "x") eq_refl))))) quoting_api
             [Some (lit "see " ++ ERROR_TAG ++ lit " above")]);
      [discriminate | reflexivity | vm_compute; reflexivity].
Defined.

(* ================================================================== *)
(** * Part III: further properties of the code                          *)
(* ================================================================== *)

(** ** Splitting and joining *)

Section SplitJoin.

Lemma join_cons (sep x : str) (l : list str) :
  l <> [] -> join sep (x :: l) = x ++ sep ++ join sep l.
Proof. destruct l; [congruence | reflexivity]. Qed.

Lemma join_cons_head (sep : str) (c : char) (p : str) (ps : list str) :
  join sep ((c :: p) :: ps) = c :: join sep (p :: ps).
Proof. destruct ps; reflexivity. Qed.

Lemma join_snoc (sep : str) (g : list str) (p : str) :
  g <> [] -> join sep (g ++ [p]) = join sep g ++ sep ++ p.
Proof.
  induction g as [|x g IH]; [congruence|]. intros _.
  destruct g as [|y g]; [reflexivity|].
  change ((x :: y :: g) ++ [p]) with (x :: ((y :: g) ++ [p])).
  rewrite join_cons by discriminate. rewrite IH by discriminate.
  rewrite (join_cons sep x (y :: g)) by discriminate.
  now rewrite <- !app_assoc.
Qed.

Lemma len_join_cons (x : str) (l : list str) :
  l <> [] -> len (join SEP (x :: l)) = len x + 2 + len (join SEP l).
Proof.
  intros H. rewrite join_cons by assumption.
  rewrite !len_app, len_SEP. lia.
Qed.

Lemma len_join_head (x : str) (l : list str) : len x <= len (join SEP (x :: l)).
Proof.
  destruct l as [|y l]; [cbn; lia|].
  rewrite len_join_cons by discriminate.
  pose proof (len_nonneg (join SEP (y :: l))). lia.
Qed.

(** Whether a string begins with the separator, in the two ways the
    development writes it. *)
Lemma starts_with_SEP (c : char) (s : str) :
  starts_with SEP (c :: s) = is_nl c && starts_nl s.
Proof.
  unfold SEP, is_nl. cbn [starts_with]. rewrite (N.eqb_sym NL c).
  destruct s as [|d s]; cbn [starts_nl starts_with]; [reflexivity|].
  unfold is_nl. now rewrite (N.eqb_sym NL d), andb_true_r.
Qed.

(** The first paragraph of a text begins as the text does. *)
Lemma first_paragraph_starts (s p : str) (ps : list str) :
  split_nn s = p :: ps -> starts_nl p = true -> starts_nl s = true.
Proof.
  destruct s as [|c s]; [intros [= <- _]; discriminate|].
  rewrite split_nn_cons. destruct (is_nl c && starts_nl s).
  - intros [= <- _]. discriminate.
  - destruct (split_nn s); intros [= <- _]; exact (fun H => H).
Qed.

Lemma contains_SEP_cons (c : char) (p : str) :
  contains SEP (c :: p) = (is_nl c && starts_nl p) || contains SEP p.
Proof. cbn [contains]. now rewrite starts_with_SEP. Qed.

End SplitJoin.

Section Partition.

Lemma join_split_nn (text : str) : join SEP (split_nn text) = text.
Proof.
  induction text as [| c | c d s IH1 IH2] using str_ind2;
    [reflexivity | reflexivity |].
  rewrite split_nn_cons. cbn [starts_nl tl].
  destruct (is_nl c && is_nl d) eqn:E.
  - apply andb_true_iff in E. destruct E as [Ec Ed].
    apply is_nl_true in Ec, Ed. subst.
    rewrite join_cons by apply split_nn_not_nil. now rewrite IH1.
  - destruct (split_nn (d :: s)) as [|p ps] eqn:Es.
    + now apply split_nn_not_nil in Es.
    + rewrite join_cons_head. now rewrite IH2.
Qed.

Lemma split_nn_no_sep (text : str) :
  Forall (fun p => contains SEP p = false) (split_nn text).
Proof.
  induction text as [| c | c d s IH1 IH2] using str_ind2.
  - repeat constructor.
  - constructor; [|constructor]. cbn. now rewrite !andb_false_r.
  - rewrite split_nn_cons. cbn [starts_nl tl].
    destruct (is_nl c && is_nl d) eqn:E.
    + constructor; [reflexivity | exact IH1].
    + destruct (split_nn (d :: s)) as [|p ps] eqn:Es.
      * now apply split_nn_not_nil in Es.
      * inversion IH2 as [|? ? Hp Hps]; subst.
        constructor; [|exact Hps].
        rewrite contains_SEP_cons, Hp, orb_false_r.
        destruct (is_nl c) eqn:Ec; [|reflexivity]. cbn [andb] in *.
        destruct (starts_nl p) eqn:Ep; [|reflexivity].
        apply (first_paragraph_starts _ _ _ Es) in Ep.
        cbn [starts_nl] in Ep. congruence.
Qed.

End Partition.

(** X1. [str.split] and [str.join] on the paragraph separator are inverse
    on every text: the paragraphs joined with the separator are the text,
    there is at least one paragraph, and no paragraph contains the
    separator. *)
Theorem paragraphs_partition_text (text : str) :
  join SEP (split_nn text) = text /\
  split_nn text <> [] /\
  Forall (fun p => contains SEP p = false) (split_nn text).
Proof.
  split; [apply join_split_nn|].
  split; [apply split_nn_not_nil | apply split_nn_no_sep].
Qed.

(** ** Texts that fit in one chunk *)

Section OneChunk.

Variable max_chars : Z.

Lemma join_merge (x p : str) (ps : list str) :
  join SEP ((x ++ SEP ++ p) :: ps) = join SEP (x :: p :: ps).
Proof.
  rewrite (join_cons SEP x (p :: ps)) by discriminate.
  destruct ps as [|q ps]; [reflexivity|].
  rewrite !join_cons by discriminate. now rewrite <- !app_assoc.
Qed.

(** While everything held and read fits, the paragraphs are merged into
    [current_chunk] and nothing is emitted. *)
Lemma for_paragraphs_merge (fuel : nat) (ps : list str) (chunks : list str)
    (cur : str) :
  truthy cur = true ->
  len (join SEP (cur :: ps)) + 2 <= max_chars ->
  for_paragraphs fuel max_chars (chunks, cur) ps =
  Some (chunks, join SEP (cur :: ps)).
Proof.
  revert cur. induction ps as [|p ps IH]; intros cur Hc Hl; [reflexivity|].
  cbn [for_paragraphs].
  assert (len cur + 2 + len p <= len (join SEP (cur :: p :: ps))) as Hb.
  { rewrite len_join_cons by discriminate.
    pose proof (len_join_head p ps). lia. }
  pose proof (len_nonneg cur). pose proof (len_nonneg p).
  unfold step. destruct (Z.gtb_spec (len p) max_chars); [lia|].
  unfold place_paragraph.
  destruct (Z.leb_spec (len cur + len p + 2) max_chars); [|lia].
  rewrite Hc, <- join_merge. apply IH.
  - destruct cur; [discriminate | reflexivity].
  - now rewrite join_merge.
Qed.

End OneChunk.

(** X2. A text that is not empty, does not begin with the separator and
    has at most [max_chars - 2] characters comes back as one chunk, the
    text itself, whatever the fuel. *)
Theorem short_text_is_one_chunk (text : str) (max_chars : Z) (fuel : nat) :
  text <> [] -> starts_with SEP text = false ->
  len text + 2 <= max_chars ->
  split_text_into_chunks fuel text max_chars = Some [text].
Proof.
  intros Hne Hs Hl.
  pose proof (join_split_nn text) as Hjoin.
  destruct text as [|c s]; [congruence|].
  rewrite starts_with_SEP in Hs.
  unfold split_text_into_chunks.
  destruct (split_nn (c :: s)) as [|p ps] eqn:Es;
    [now apply split_nn_not_nil in Es|].
  assert (truthy p = true) as Hp.
  { rewrite split_nn_cons, Hs in Es.
    destruct (split_nn s); injection Es as <- _; reflexivity. }
  pose proof (len_join_head p ps) as Hh. rewrite Hjoin in Hh.
  pose proof (len_nonneg p).
  cbn [for_paragraphs]. unfold step.
  destruct (Z.gtb_spec (len p) max_chars); [lia|].
  unfold place_paragraph. rewrite len_nil.
  destruct (Z.leb_spec (0 + len p + 2) max_chars); [|lia].
  cbn [truthy]. rewrite for_paragraphs_merge by (rewrite ?Hjoin; auto).
  rewrite Hjoin. reflexivity.
Qed.

Lemma short_text_is_one_chunk_witness :
  split_text_into_chunks 0 short_text 2500 = Some [short_text].
Proof.
  apply (short_text_is_one_chunk short_text 2500 0);
    [discriminate | reflexivity | vm_compute; discriminate].
Defined.

(** ** Invariants that depend on the paragraphs read *)

Section InvariantOn.

Variable max_chars : Z.
Hypothesis max_pos : 1 <= max_chars.

Variable Inv : state -> Prop.
Variable Q : str -> Prop.

Hypothesis Inv_slice : forall st s,
  Inv st -> 1 <= len s <= max_chars -> Inv (place_slice max_chars st s).

Hypothesis Inv_paragraph : forall st p,
  Inv st -> len p <= max_chars -> Q p ->
  Inv (place_paragraph max_chars st p).

Lemma InvOn_step (fuel : nat) (st : state) (p : str) :
  Inv st -> Q p -> (List.length p <= fuel)%nat ->
  exists st', step fuel max_chars st p = Some st' /\ Inv st'.
Proof.
  intros HI HQ Hf. unfold step.
  destruct (Z.gtb_spec (len p) max_chars) as [Hgt|Hle].
  - unfold force_split. rewrite while_slices_fold.
    destruct (recorded_slices p max_chars max_pos fuel 0)
      as (sl & Hrun & _ & Hall & _).
    + pose proof (len_nonneg p). lia.
    + unfold len. lia.
    + rewrite Hrun. cbn [option_map]. eexists. split; [reflexivity|].
      apply (Inv_fold_slices max_chars (fun st _ => Inv st)
               (fun st _ s H Hs => Inv_slice st s H Hs) sl st []); assumption.
  - eexists. split; [reflexivity|]. now apply Inv_paragraph.
Qed.

Lemma InvOn_for_paragraphs (fuel : nat) (ps : list str) (st : state) :
  Inv st -> Forall Q ps ->
  Forall (fun p => (List.length p <= fuel)%nat) ps ->
  exists st', for_paragraphs fuel max_chars st ps = Some st' /\ Inv st'.
Proof.
  revert st. induction ps as [|p ps IH]; intros st HI HQ Hf.
  - now exists st.
  - inversion HQ; inversion Hf; subst. cbn [for_paragraphs].
    destruct (InvOn_step fuel st p) as (st1 & -> & HI1); auto.
Qed.

Lemma InvOn_split (fuel : nat) (text : str) :
  Inv ([], []) -> Forall Q (split_nn text) -> (enough text <= fuel)%nat ->
  exists st,
    split_text_into_chunks fuel text max_chars = Some (finish st) /\ Inv st.
Proof.
  intros H0 HQ Hf. unfold split_text_into_chunks.
  destruct (InvOn_for_paragraphs fuel (split_nn text) ([], []) H0 HQ)
    as (st & -> & HI).
  - eapply Forall_impl; [|apply split_nn_length].
    cbn. unfold enough in Hf. intros; lia.
  - now exists st.
Qed.

End InvariantOn.

Lemma nonempty_len (s : str) : 0 < len s -> s <> [].
Proof. intros H ->. rewrite len_nil in H. lia. Qed.

(** X3. When no paragraph of the text has [max_chars - 1] or [max_chars]
    characters, no chunk is empty. *)
Theorem no_empty_chunk_without_nearly_full_paragraph
    (text : str) (max_chars : Z) (fuel : nat) :
  1 <= max_chars -> (enough text <= fuel)%nat ->
  Forall (fun p => len p <> max_chars - 1 /\ len p <> max_chars)
    (split_nn text) ->
  exists chunks,
    split_text_into_chunks fuel text max_chars = Some chunks /\
    Forall (fun chunk => chunk <> []) chunks.
Proof.
  intros Hm Hf HQ.
  destruct (InvOn_split max_chars Hm
              (fun st => Forall (fun chunk => chunk <> []) (fst st))
              (fun p => len p <> max_chars - 1 /\ len p <> max_chars))
    with (fuel := fuel) (text := text) as (st & Hrun & HI); auto.
  - intros st s HI Hs. placing st; cbn [fst snd] in *;
      rewrite ?Forall_app; repeat split; auto;
      (constructor; [apply nonempty_len; lia | constructor]).
  - intros st p HI Hp Hq. pose proof (len_nonneg p).
    placing st; cbn [fst snd] in *; auto.
    rewrite Forall_app. split; [assumption|].
    constructor; [apply nonempty_len; lia | constructor].
  - exists (finish st). split; [exact Hrun|].
    destruct st as [chunks cur]. unfold finish. cbn [fst] in HI.
    destruct (truthy cur) eqn:E; [|assumption].
    rewrite Forall_app. split; [assumption|].
    constructor; [apply nonempty_len; now apply truthy_true | constructor].
Qed.

Lemma no_empty_chunk_without_nearly_full_paragraph_witness :
  exists chunks,
    split_text_into_chunks 20 two_paragraphs 12 = Some chunks /\
    Forall (fun chunk => chunk <> []) chunks.
Proof.
  apply (no_empty_chunk_without_nearly_full_paragraph two_paragraphs 12 20);
    [lia | vm_compute; lia |].
  vm_compute. repeat constructor; discriminate.
Defined.

(** ** Paragraph boundaries *)

Section Groups.

Variable max_chars : Z.

Lemma join_nil_filter (g : list str) :
  join SEP g = [] -> filter truthy g = [].
Proof.
  destruct g as [|x [|y g]]; [reflexivity | cbn; now intros -> |].
  rewrite join_cons by discriminate. intros H.
  apply app_eq_nil in H. destruct H as [_ H]. discriminate.
Qed.

Lemma join_truthy_not_nil (g : list str) :
  truthy (join SEP g) = true -> g <> [].
Proof. intros H ->. discriminate. Qed.

(** One paragraph that fits: the group held grows, or is closed and a new
    one is opened. Only empty paragraphs can go missing. *)
Lemma place_paragraph_groups (st : state) (gs : list (list str))
    (g : list str) (p : str) :
  fst st = map (join SEP) gs -> snd st = join SEP g ->
  exists gs' g',
    fst (place_paragraph max_chars st p) = map (join SEP) gs' /\
    snd (place_paragraph max_chars st p) = join SEP g' /\
    filter truthy (concat gs' ++ g') =
    filter truthy (concat gs ++ g) ++ filter truthy [p].
Proof.
  destruct st as [chunks cur]. cbn [fst snd]. intros Hc Hg.
  unfold place_paragraph.
  destruct (len cur + len p + 2 <=? max_chars).
  - destruct (truthy cur) eqn:E; cbn [fst snd].
    + exists gs, (g ++ [p]). split; [assumption|]. split.
      * rewrite join_snoc by (apply join_truthy_not_nil; congruence).
        now rewrite Hg.
      * now rewrite !app_assoc, filter_app.
    + exists gs, [p]. split; [assumption|]. split; [reflexivity|].
      apply truthy_false in E. rewrite E in Hg. symmetry in Hg.
      apply join_nil_filter in Hg.
      now rewrite !filter_app, Hg, app_nil_r.
  - cbn [fst snd]. exists (gs ++ [g]), [p]. split; [|split; [reflexivity|]].
    + now rewrite map_app, Hc, Hg.
    + rewrite concat_app. cbn [concat]. rewrite app_nil_r.
      now rewrite filter_app.
Qed.

Lemma for_paragraphs_groups (fuel : nat) (ps : list str) (st : state)
    (gs : list (list str)) (g : list str) :
  Forall (fun p => len p <= max_chars) ps ->
  fst st = map (join SEP) gs -> snd st = join SEP g ->
  exists st' gs' g',
    for_paragraphs fuel max_chars st ps = Some st' /\
    fst st' = map (join SEP) gs' /\ snd st' = join SEP g' /\
    filter truthy (concat gs' ++ g') =
    filter truthy (concat gs ++ g) ++ filter truthy ps.
Proof.
  intros Hall. revert st gs g.
  induction Hall as [|p ps Hp _ IH]; intros st gs g Hc Hg.
  - exists st, gs, g. rewrite app_nil_r. auto.
  - cbn [for_paragraphs]. unfold step.
    destruct (Z.gtb_spec (len p) max_chars); [lia|].
    destruct (place_paragraph_groups st gs g p Hc Hg)
      as (gs1 & g1 & Hc1 & Hg1 & Hf1).
    destruct (IH _ gs1 g1 Hc1 Hg1) as (st' & gs' & g' & Hrun & Hc' & Hg' & Hf').
    exists st', gs', g'. repeat split; auto.
    change (p :: ps) with ([p] ++ ps).
    rewrite Hf', Hf1, (filter_app truthy [p] ps), <- app_assoc. reflexivity.
Qed.

End Groups.

(** X4. When no paragraph is longer than [max_chars], no paragraph is cut:
    every chunk is a group of whole paragraphs joined with the separator,
    and the paragraphs that are not empty are, in the order of the text
    and each once, the ones of the groups. *)
Theorem paragraphs_are_kept_whole (text : str) (max_chars : Z) (fuel : nat) :
  Forall (fun p => len p <= max_chars) (split_nn text) ->
  exists groups,
    split_text_into_chunks fuel text max_chars =
      Some (map (join SEP) groups) /\
    filter truthy (concat groups) = filter truthy (split_nn text).
Proof.
  intros Hall.
  destruct (for_paragraphs_groups max_chars fuel (split_nn text) ([], [])
              [] [] Hall eq_refl eq_refl)
    as ([chunks cur] & gs & g & Hrun & Hc & Hg & Hf).
  cbn [fst snd concat app filter] in *.
  unfold split_text_into_chunks. rewrite Hrun. unfold finish.
  destruct (truthy cur) eqn:E.
  - exists (gs ++ [g]). split.
    + now rewrite map_app, Hc, Hg.
    + rewrite concat_app. cbn [concat]. now rewrite app_nil_r.
  - exists gs. split; [now rewrite Hc|].
    apply truthy_false in E. rewrite E in Hg. symmetry in Hg.
    apply join_nil_filter in Hg.
    now rewrite filter_app, Hg, app_nil_r in Hf.
Qed.

Lemma paragraphs_are_kept_whole_witness :
  exists groups,
    split_text_into_chunks 0 two_paragraphs 12 = Some (map (join SEP) groups) /\
    filter truthy (concat groups) = filter truthy (split_nn two_paragraphs).
Proof.
  apply (paragraphs_are_kept_whole two_paragraphs 12 0).
  vm_compute. repeat constructor; discriminate.
Defined.

(** ** A text of one oversized paragraph *)

Section Windows.

Variable paragraph : str.
Variable max_chars : Z.
Hypothesis max_pos : 1 <= max_chars.

Lemma while_slices_at_end {S : Type} (body : S -> str -> S) (fuel : nat)
    (st : S) (start : Z) :
  len paragraph <= start ->
  while_slices fuel body paragraph max_chars st start = Some st.
Proof.
  intros H. destruct fuel; cbn [while_slices];
    destruct (Z.ltb_spec start (len paragraph)); (lia || reflexivity).
Qed.

(** From nothing held, the forced split hands out its slices as chunks,
    one by one. *)
Lemma force_split_windows (fuel : nat) (chunks : list str) (start : Z) :
  0 <= start <= len paragraph ->
  (Z.to_nat (len paragraph - start) <= fuel)%nat ->
  exists sl st',
    while_slices fuel record paragraph max_chars [] start = Some sl /\
    while_slices fuel (place_slice max_chars) paragraph max_chars
      (chunks, []) start = Some st' /\
    finish st' = chunks ++ sl.
Proof.
  revert chunks start.
  induction fuel as [|fuel IH]; intros chunks start Hs Hf.
  - exists [], (chunks, []). rewrite !while_slices_at_end by lia.
    cbn. now rewrite app_nil_r.
  - destruct (Z.ltb_spec start (len paragraph)) as [Hlt|Hge].
    + cbn [while_slices].
      destruct (Z.ltb_spec start (len paragraph)); [|lia].
      pose proof (slice_end_progress paragraph max_chars max_pos start
                    ltac:(lia)) as Hp.
      set (e := slice_end paragraph max_chars start) in *.
      assert (len (slice paragraph start e) = e - start) as Hl
        by (apply len_slice; lia).
      rewrite (record_from_acc paragraph max_chars fuel (record [] _)).
      destruct (Z.leb_spec (start + max_chars) (len paragraph)) as [Hle|Hgt].
      * assert (e = start + max_chars) as He
          by (subst e; unfold slice_end; lia).
        assert (place_slice max_chars (chunks, []) (slice paragraph start e) =
                (chunks ++ [slice paragraph start e], [])) as ->.
        { unfold place_slice. rewrite len_nil, Hl. cbn [truthy].
          destruct (Z.leb_spec (0 + (e - start) + 2) max_chars); [lia|].
          destruct (Z.geb_spec (e - start) max_chars); [reflexivity | lia]. }
        destruct (IH (chunks ++ [slice paragraph start e]) e
                    ltac:(lia) ltac:(lia)) as (sl & st' & Hr & Hrun & Hfin).
        exists (slice paragraph start e :: sl), st'.
        rewrite Hr, Hrun, Hfin. cbn [option_map]. unfold record.
        split; [reflexivity | split; [reflexivity|]].
        now rewrite <- app_assoc.
      * assert (e = len paragraph) as He
          by (subst e; unfold slice_end; lia).
        assert (place_slice max_chars (chunks, []) (slice paragraph start e) =
                (chunks, slice paragraph start e)) as ->.
        { unfold place_slice. rewrite len_nil, Hl. cbn [truthy].
          destruct (Z.leb_spec (0 + (e - start) + 2) max_chars);
            [reflexivity|].
          destruct (Z.geb_spec (e - start) max_chars); [lia | reflexivity]. }
        exists [slice paragraph start e], (chunks, slice paragraph start e).
        rewrite !while_slices_at_end by lia. cbn [option_map].
        repeat split. unfold finish.
        destruct (truthy (slice paragraph start e)) eqn:E; [reflexivity|].
        apply truthy_false in E. rewrite E, len_nil in Hl. lia.
    + exists [], (chunks, []). rewrite !while_slices_at_end by lia.
      cbn. now rewrite app_nil_r.
Qed.

End Windows.

Lemma split_nn_one_paragraph (text : str) :
  contains SEP text = false -> split_nn text = [text].
Proof.
  induction text as [| c | c d s _ IH] using str_ind2;
    [reflexivity | reflexivity |].
  rewrite contains_SEP_cons. intros H. apply orb_false_iff in H.
  destruct H as [Hs Hc]. rewrite split_nn_cons, Hs, (IH Hc). reflexivity.
Qed.

(** X5. A text without separator and longer than [max_chars >= 1] comes
    back as the slices of the forced split, nothing else: the chunks are
    the consecutive windows of [max_chars] characters of the text (the
    last one shorter when the length is no multiple), and put end to end
    they are the text. *)
Theorem oversized_text_is_its_windows (text : str) (max_chars : Z) (fuel : nat) :
  1 <= max_chars -> (enough text <= fuel)%nat ->
  contains SEP text = false -> len text > max_chars ->
  exists chunks,
    split_text_into_chunks fuel text max_chars = Some chunks /\
    forced_slices fuel max_chars text = Some chunks /\
    Z.of_nat (List.length chunks) = slice_count max_chars (len text) /\
    concat chunks = text /\
    (forall i, (i < List.length chunks)%nat ->
       nth i chunks [] =
       slice text (Z.of_nat i * max_chars)
         (Z.min ((Z.of_nat i + 1) * max_chars) (len text))).
Proof.
  intros Hm Hf Hsep HL.
  assert (0 <= 0 <= len text) as H0 by (pose proof (len_nonneg text); lia).
  assert (Z.to_nat (len text - 0) <= fuel)%nat as Hf'
    by (unfold enough, len in *; lia).
  destruct (force_split_windows text max_chars Hm fuel [] 0 H0 Hf')
    as (sl & st' & Hr & Hrun & Hfin).
  destruct (recorded_slices text max_chars Hm fuel 0 H0 Hf')
    as (sl' & Hr' & Hcat & _ & Hlen & Hnth).
  rewrite Hr in Hr'. injection Hr' as <-.
  exists sl. split; [|split; [exact Hr | split; [|split]]].
  - unfold split_text_into_chunks.
    rewrite (split_nn_one_paragraph text Hsep). cbn [for_paragraphs].
    unfold step. destruct (Z.gtb_spec (len text) max_chars); [|lia].
    unfold force_split. rewrite Hrun, Hfin. reflexivity.
  - now rewrite Z.sub_0_r in Hlen.
  - exact Hcat.
  - intros i Hi. rewrite (Hnth i Hi). reflexivity.
Qed.

Lemma oversized_text_is_its_windows_witness :
  exists chunks,
    split_text_into_chunks 11 eleven 5 = Some chunks /\
    forced_slices 11 5 eleven = Some chunks /\
    Z.of_nat (List.length chunks) = slice_count 5 (len eleven) /\
    concat chunks = eleven /\
    (forall i, (i < List.length chunks)%nat ->
       nth i chunks [] =
       slice eleven (Z.of_nat i * 5) (Z.min ((Z.of_nat i + 1) * 5) (len eleven))).
Proof.
  apply (oversized_text_is_its_windows eleven 5 11);
    [lia | vm_compute; lia | reflexivity | reflexivity].
Defined.

(** ** The handler's way to the chunker, again *)

Section Dispatch.

Lemma some_char_not_space (text : str) :
  truthy (strip text) = true ->
  exists c, In c text /\ is_space c = false.
Proof.
  intros H. destruct (forallb is_space text) eqn:E.
  - rewrite (strip_all_space text E) in H. discriminate.
  - clear H. induction text as [|c text IH]; [discriminate|].
    cbn [forallb] in E. apply andb_false_iff in E. destruct E as [E|E].
    + exists c. split; [now left | exact E].
    + destruct (IH E) as (d & Hd & Hs). exists d. split; [now right | exact Hs].
Qed.

(** A character that is no newline survives in the content. *)
Lemma content_keeps_char (c : char) (s : str) :
  In c s -> is_nl c = false -> In c (content s).
Proof.
  intros Hin Hc.
  induction s as [| c0 | c0 d s IH1 IH2] using str_ind2.
  - contradiction.
  - exact Hin.
  - rewrite content_cons. cbn [starts_nl tl].
    destruct (is_nl c0 && is_nl d) eqn:E.
    + apply andb_true_iff in E. destruct E as [E0 Ed].
      destruct Hin as [<- | [<- | Hin]]; [congruence | congruence | auto].
    + destruct Hin as [<- | Hin]; [now left | right; auto].
Qed.

(** The chunker keeps the content of the text in what it holds. *)
Lemma split_keeps_content (text : str) (max_chars : Z) (fuel : nat) :
  1 <= max_chars -> (enough text <= fuel)%nat ->
  exists chunks,
    split_text_into_chunks fuel text max_chars = Some chunks /\
    content (concat chunks) = content text.
Proof.
  intros Hm Hf.
  destruct (Inv_split max_chars Hm
              (fun st done => content (flat st) = content done))
    with (fuel := fuel) (text := text) as (st & Hrun & HI).
  - intros st done s HI _.
    destruct (flat_place_slice max_chars st s) as [-> | ->];
      rewrite ?content_insert_sep; now apply content_congr.
  - intros st done p HI _.
    destruct (flat_place_paragraph max_chars st p) as [-> | ->];
      rewrite ?content_insert_sep; now apply content_congr.
  - reflexivity.
  - exact Hf.
  - exists (finish st). split; [exact Hrun|].
    rewrite concat_finish, HI. apply content_idem.
Qed.

End Dispatch.

(** X6. A text with a character that is no whitespace always goes on to
    the translation with at least one chunk: the handler's branch for zero
    chunks (its warning and [st.stop()]) is never taken, and the chunker
    comes back. *)
Theorem text_with_content_is_translated (text : str) (fuel : nat) :
  truthy (strip text) = true -> (enough text <= fuel)%nat ->
  exists chunk chunks,
    split_text_into_chunks fuel text MAX_CHARS_PER_CHUNK =
      Some (chunk :: chunks) /\
    dispatch fuel (Some text) = ToTranslate (chunk :: chunks).
Proof.
  intros Hs Hf.
  destruct (split_keeps_content text MAX_CHARS_PER_CHUNK fuel)
    as (chunks & Hrun & Hc); [unfold MAX_CHARS_PER_CHUNK; lia | exact Hf |].
  destruct (some_char_not_space text Hs) as (c & Hin & Hsp).
  assert (is_nl c = false) as Hnl.
  { destruct (is_nl c) eqn:E; [|reflexivity].
    apply is_nl_true in E. subst c. discriminate. }
  pose proof (content_keeps_char c text Hin Hnl) as Hk.
  destruct chunks as [|chunk chunks].
  - cbn [concat] in Hc. rewrite <- Hc in Hk. contradiction.
  - exists chunk, chunks. split; [exact Hrun|].
    unfold dispatch. rewrite Hs, Hrun. reflexivity.
Qed.

Lemma text_with_content_is_translated_witness :
  exists chunk chunks,
    split_text_into_chunks 20 two_paragraphs MAX_CHARS_PER_CHUNK =
      Some (chunk :: chunks) /\
    dispatch 20 (Some two_paragraphs) = ToTranslate (chunk :: chunks).
Proof.
  apply (text_with_content_is_translated two_paragraphs 20);
    [reflexivity | vm_compute; lia].
Defined.

(** ** The error flag and the merged text *)

Section Merged.

Lemma classify_is_failure (n : nat) (r : option str) :
  is_failure (classify n r) = negb (is_success r).
Proof.
  unfold classify. destruct r as [t|]; [|reflexivity].
  destruct (is_success (Some t)); reflexivity.
Qed.

Lemma spec_process_in (transform : nat -> str -> option str)
    (chunks : list str) (i : nat) (r : chunk_result) :
  In r (spec_process transform i chunks) ->
  exists k chunk,
    nth_error chunks k = Some chunk /\
    r = classify (i + k + 1) (transform (i + k)%nat chunk).
Proof.
  intros Hin. apply In_nth_error in Hin. destruct Hin as [k Hk].
  destruct (nth_error chunks k) as [chunk|] eqn:E.
  - exists k, chunk. split; [exact E|].
    rewrite (spec_process_nth transform chunks i k chunk E) in Hk.
    now injection Hk.
  - apply nth_error_None in E.
    rewrite <- (spec_process_length transform chunks i) in E.
    apply nth_error_None in E. congruence.
Qed.

Lemma success_not_tagged (n : nat) (r : option str) :
  is_success r = true -> contains ERROR_TAG (render (classify n r)) = false.
Proof.
  intros H. destruct r as [t|]; [|discriminate].
  rewrite classify_success by exact H. cbn [render is_success] in *.
  apply andb_true_iff in H. destruct H as [_ H].
  now apply negb_true_iff in H.
Qed.

(** A pattern without newline that occurs in [a ++ "\n" ++ b] occurs in
    [a] or in [b]. *)
Lemma contains_across_newline (pat a b : str) :
  pat <> [] -> existsb is_nl pat = false ->
  contains pat (a ++ NL :: b) = true ->
  contains pat a = true \/ contains pat b = true.
Proof.
  intros Hne Hnl H. apply contains_iff in H. destruct H as (u & v & H).
  assert (forall l m, pat = l ++ NL :: m -> False) as Hno.
  { intros l m ->. rewrite existsb_app in Hnl. cbn in Hnl.
    now rewrite orb_true_r in Hnl. }
  apply app_eq_app in H. destruct H as (l & [[-> H] | [-> H]]).
  - symmetry in H. apply app_eq_app in H.
    destruct H as (m & [[-> H] | [-> H]]).
    + left. apply contains_iff. now exists u, m.
    + destruct m as [|c m].
      * left. apply contains_iff. exists u, []. now rewrite !app_nil_r.
      * injection H as <- _. exfalso. now apply (Hno l m).
  - destruct l as [|c l].
    + cbn [app] in H. destruct pat as [|c pat]; [congruence|].
      injection H as <- _. exfalso. now apply (Hno [] pat).
    + injection H as _ ->. right. apply contains_iff. now exists l, v.
Qed.

Lemma contains_nil (pat : str) : pat <> [] -> contains pat [] = false.
Proof. destruct pat; [congruence | reflexivity]. Qed.

Lemma contains_join (pat : str) (l : list str) :
  pat <> [] -> existsb is_nl pat = false ->
  contains pat (join SEP l) = true ->
  Exists (fun x => contains pat x = true) l.
Proof.
  intros Hne Hnl. induction l as [|x l IH]; intros H.
  - cbn [join] in H. rewrite contains_nil in H by assumption. discriminate.
  - destruct l as [|y l]; [now left|].
    rewrite join_cons in H by discriminate. unfold SEP in H. cbn [app] in H.
    apply contains_across_newline in H; try assumption.
    destruct H as [H|H]; [now left|].
    change (NL :: join [NL; NL] (y :: l))
      with ([] ++ NL :: join SEP (y :: l)) in H.
    apply contains_across_newline in H; try assumption.
    destruct H as [H|H]; [|right; auto].
    rewrite contains_nil in H by assumption. discriminate.
Qed.

Lemma contains_join_elem (x : str) (l : list str) :
  In x l -> contains x (join SEP l) = true.
Proof.
  intros Hin. apply contains_iff.
  induction l as [|y l IH]; [contradiction|].
  destruct l as [|z l].
  - destruct Hin as [-> | []]. exists [], []. cbn. now rewrite app_nil_r.
  - rewrite join_cons by discriminate. destruct Hin as [-> | Hin].
    + now exists [], (SEP ++ join SEP (z :: l)).
    + destruct (IH Hin) as (a & b & ->).
      exists (y ++ SEP ++ a), b. now rewrite <- !app_assoc.
Qed.

End Merged.

(** X7. The error flag is raised exactly when some chunk failed the test
    of the loop; when it is not raised, the results kept are the texts the
    transform returned, chunk by chunk. *)
Theorem errors_flag_iff_some_chunk_failed
    (transform : nat -> str -> option str) (chunks : list str) :
  (errors_occurred (process transform chunks) = true <->
   exists i chunk,
     nth_error chunks i = Some chunk /\
     is_success (transform i chunk) = false) /\
  (errors_occurred (process transform chunks) = false ->
   forall i chunk, nth_error chunks i = Some chunk ->
     nth_error (translated_chunks (process transform chunks)) i =
     transform i chunk).
Proof.
  assert (errors_occurred (process transform chunks) = true <->
          exists i chunk, nth_error chunks i = Some chunk /\
                          is_success (transform i chunk) = false) as Hiff.
  { split.
    - unfold process. rewrite translate_loop_spec. cbn [errors_occurred orb].
      intros H. apply existsb_exists in H. destruct H as (r & Hin & Hr).
      apply spec_process_in in Hin. destruct Hin as (k & chunk & Hk & ->).
      exists k, chunk. split; [exact Hk|].
      rewrite classify_is_failure in Hr. cbn [Nat.add] in Hr.
      now apply negb_true_iff in Hr.
    - intros (i & chunk & Hi & Hf).
      now apply (process_errors transform chunks i chunk). }
  split; [exact Hiff|].
  intros Hno i chunk Hi.
  rewrite (process_nth transform chunks i chunk Hi).
  destruct (is_success (transform i chunk)) eqn:E.
  - destruct (transform i chunk) as [t|]; [|discriminate].
    now rewrite classify_success.
  - assert (errors_occurred (process transform chunks) = true) as Ht
      by (apply Hiff; now exists i, chunk).
    congruence.
Qed.

(** X8. When the error flag is not raised, the error tag occurs nowhere in
    the merged text. When a chunk failed, its failure marker, with its
    number and detail, occurs in the merged text. *)
Theorem merged_text_marks_failures
    (transform : nat -> str -> option str) (chunks : list str) :
  (errors_occurred (process transform chunks) = false ->
   contains ERROR_TAG (final_translated_text (process transform chunks)) =
   false) /\
  (forall i chunk, nth_error chunks i = Some chunk ->
     is_success (transform i chunk) = false ->
     contains (failure_marker (i + 1) (or_unknown (transform i chunk)))
       (final_translated_text (process transform chunks)) = true).
Proof.
  split.
  - intros Hno.
    destruct (contains ERROR_TAG (final_translated_text _)) eqn:E;
      [|reflexivity].
    exfalso. unfold final_translated_text in E.
    apply contains_join in E; [|discriminate | reflexivity].
    apply Exists_exists in E. destruct E as (x & Hin & Hx).
    unfold process in Hin, Hno. rewrite translate_loop_spec in Hin, Hno.
    cbn [translated_chunks errors_occurred app orb] in Hin, Hno.
    apply in_map_iff in Hin. destruct Hin as (r & <- & Hin).
    assert (is_failure r = false) as Hr.
    { destruct (is_failure r) eqn:Er; [|reflexivity].
      assert (existsb is_failure (spec_process transform 0 chunks) = true)
        by (apply existsb_exists; now exists r).
      congruence. }
    apply spec_process_in in Hin. destruct Hin as (k & chunk & _ & ->).
    rewrite classify_is_failure in Hr. apply negb_false_iff in Hr.
    rewrite success_not_tagged in Hx by exact Hr. discriminate.
  - intros i chunk Hi Hf. unfold final_translated_text.
    apply contains_join_elem. eapply nth_error_In.
    rewrite (process_nth transform chunks i chunk Hi).
    now rewrite classify_failure.
Qed.

Lemma merged_text_marks_failures_witness :
  contains ERROR_TAG
    (final_translated_text (process sample_transform [lit "x"; lit "x"])) =
    false /\
  contains (failure_marker 2 UNKNOWN_ERROR)
    (final_translated_text (process sample_transform [lit "x"; lit "y"])) =
    true.
Proof.
  split.
  - apply (proj1 (merged_text_marks_failures sample_transform
                    [lit "x"; lit "x"])).
    reflexivity.
  - apply (proj2 (merged_text_marks_failures sample_transform
                    [lit "x"; lit "y"]) 1%nat (lit "y"));
      reflexivity.
Defined.

(** ** [translate_text] under the test of the loop *)

Section Stripping.

Lemma lstrip_clean (s : str) : clean_head (lstrip s) = true.
Proof.
  induction s as [|c s IH]; [reflexivity|]. cbn [lstrip].
  destruct (is_space c) eqn:E; [exact IH|]. cbn [clean_head]. now rewrite E.
Qed.

Lemma lstrip_fixed (s : str) : clean_head s = true -> lstrip s = s.
Proof.
  destruct s as [|c s]; [reflexivity|]. cbn [clean_head lstrip].
  intros H. apply negb_true_iff in H. now rewrite H.
Qed.

(** [lstrip] takes whitespace off the front, nothing else. *)
Lemma lstrip_prefix (s : str) :
  exists w, s = w ++ lstrip s /\ forallb is_space w = true.
Proof.
  induction s as [|c s (w & Hw & Hs)]; [now exists []|]. cbn [lstrip].
  destruct (is_space c) eqn:E.
  - exists (c :: w). cbn [app forallb]. rewrite E, Hs. now rewrite <- Hw.
  - now exists [].
Qed.

(** [rstrip] takes whitespace off the end, nothing else. *)
Lemma rstrip_suffix (s : str) :
  exists w, s = rstrip s ++ w /\ forallb is_space w = true.
Proof.
  unfold rstrip. destruct (lstrip_prefix (rev s)) as (w & Hw & Hs).
  exists (rev w). split.
  - rewrite <- rev_app_distr, <- Hw. now rewrite rev_involutive.
  - rewrite forallb_forall in *. intros x Hx. apply Hs. now apply in_rev.
Qed.

Lemma rstrip_clean_head (s : str) :
  clean_head s = true -> clean_head (rstrip s) = true.
Proof.
  intros H. destruct (rstrip_suffix s) as (w & Hw & _).
  destruct (rstrip s) as [|c r]; [reflexivity|].
  rewrite Hw in H. exact H.
Qed.

Lemma rstrip_clean_end (s : str) : clean_head (rev (rstrip s)) = true.
Proof. unfold rstrip. rewrite rev_involutive. apply lstrip_clean. Qed.

(** What [strip] returns has no whitespace at either end, and [strip]
    leaves it as it is. *)
Lemma strip_clean (s : str) :
  clean_head (strip s) = true /\ clean_head (rev (strip s)) = true.
Proof.
  unfold strip. split; [|apply rstrip_clean_end].
  apply rstrip_clean_head, lstrip_clean.
Qed.

Lemma strip_fixed (s : str) :
  clean_head s = true -> clean_head (rev s) = true -> strip s = s.
Proof.
  intros H1 H2. unfold strip, rstrip. rewrite (lstrip_fixed s H1).
  rewrite (lstrip_fixed (rev s) H2). apply rev_involutive.
Qed.

Lemma strip_idem (s : str) : strip (strip s) = strip s.
Proof. destruct (strip_clean s). now apply strip_fixed. Qed.

End Stripping.

(** X9. In the handler, chunk [i] is kept as a translation exactly when it
    is not empty, the API call for it returns a stream, and the text of the
    stream, stripped, is not empty and does not quote the error tag; the
    text kept is that stripped text. An empty chunk is kept as the failure
    marker with the detail ["未知錯誤"], whatever the API would do, and so is
    a chunk for which the API returns only whitespace. *)
Theorem handler_keeps_translation_iff
    (api : nat -> str -> api_result) (chunks : list str)
    (i : nat) (chunk : str) :
  nth_error chunks i = Some chunk ->
  (is_success (translate_text (api i) chunk) = true <->
   chunk <> [] /\
   exists parts,
     api i (fixed_instruction_prompt ++ SEP ++ chunk) = Stream parts /\
     strip (concat (map part_text parts)) <> [] /\
     contains ERROR_TAG (strip (concat (map part_text parts))) = false) /\
  (forall parts, chunk <> [] ->
     api i (fixed_instruction_prompt ++ SEP ++ chunk) = Stream parts ->
     is_success (translate_text (api i) chunk) = true ->
     nth_error (translated_chunks (handler_loop api chunks)) i =
       Some (strip (concat (map part_text parts)))) /\
  (chunk = [] ->
   nth_error (translated_chunks (handler_loop api chunks)) i =
     Some (failure_marker (i + 1) UNKNOWN_ERROR)) /\
  (forall parts, chunk <> [] ->
     api i (fixed_instruction_prompt ++ SEP ++ chunk) = Stream parts ->
     forallb is_space (concat (map part_text parts)) = true ->
     nth_error (translated_chunks (handler_loop api chunks)) i =
       Some (failure_marker (i + 1) UNKNOWN_ERROR)).
Proof.
  intros Hi.
  assert (forall parts, chunk <> [] ->
            api i (fixed_instruction_prompt ++ SEP ++ chunk) = Stream parts ->
            translate_text (api i) chunk =
            Some (strip (concat (map part_text parts)))) as Hstream.
  { intros parts Hne Hapi. unfold translate_text. rewrite Hapi.
    destruct chunk; [congruence | reflexivity]. }
  split; [|split; [|split]].
  - split.
    + intros H. destruct chunk as [|c chunk]; [discriminate|].
      split; [discriminate|]. unfold translate_text in H. cbn [truthy negb] in H.
      destruct (api i _) as [parts | e] eqn:Hapi.
      * exists parts. split; [reflexivity|]. cbn [is_success] in H.
        apply andb_true_iff in H. destruct H as [Ht Hc].
        split; [|now apply negb_true_iff in Hc].
        intros E. rewrite E in Ht. discriminate.
      * destruct (tagged_is_failure _ (error_marker_tagged e)). congruence.
    + intros (Hne & parts & Hapi & Ht & Hc).
      rewrite (Hstream parts Hne Hapi). cbn [is_success]. rewrite Hc.
      destruct (strip _); [congruence | reflexivity].
  - intros parts Hne Hapi Hs. unfold handler_loop.
    rewrite (process_nth _ chunks i chunk Hi). cbv beta.
    rewrite (Hstream parts Hne Hapi) in *. now rewrite classify_success.
  - intros ->. unfold handler_loop.
    rewrite (process_nth _ chunks i [] Hi). reflexivity.
  - intros parts Hne Hapi Hs. unfold handler_loop.
    rewrite (process_nth _ chunks i chunk Hi). cbv beta.
    rewrite (Hstream parts Hne Hapi), (strip_all_space _ Hs). reflexivity.
Qed.

Lemma handler_keeps_translation_iff_witness :
  nth_error (translated_chunks (handler_loop failing_api [lit "a"; []])) 1 =
    Some (failure_marker 2 UNKNOWN_ERROR).
Proof.
  apply (proj1 (proj2 (proj2
           (handler_keeps_translation_iff failing_api [lit "a"; []] 1 []
              eq_refl))));
    reflexivity.
Defined.

(** ** The pace of the loop *)

Section Pace.

Variable api : nat -> str -> api_result.

Lemma translate_text_events_sleeps (a : str -> api_result) (text : str) :
  filter is_sleep (translate_text_events a text) = [].
Proof.
  unfold translate_text_events. destruct (negb (truthy text)); [reflexivity|].
  cbn [filter is_sleep]. destruct (a _); reflexivity.
Qed.

Lemma translate_text_events_prompts (a : str -> api_result) (text : str) :
  flat_map prompts (translate_text_events a text) =
  if truthy text then [fixed_instruction_prompt ++ SEP ++ text] else [].
Proof.
  unfold translate_text_events. destruct (truthy text); [|reflexivity].
  cbn [negb flat_map prompts app]. destruct (a _); reflexivity.
Qed.

Lemma turn_events_sleeps (total i : nat) (chunk : str) :
  filter is_sleep (turn_events api total i chunk) =
  if (i + 1 <? total)%nat then [Sleep API_CALL_DELAY] else [].
Proof.
  unfold turn_events. rewrite !filter_app, translate_text_events_sleeps.
  destruct (is_success _); destruct (i + 1 <? total)%nat; reflexivity.
Qed.

Lemma turn_events_prompts (total i : nat) (chunk : str) :
  flat_map prompts (turn_events api total i chunk) =
  if truthy chunk then [fixed_instruction_prompt ++ SEP ++ chunk] else [].
Proof.
  unfold turn_events. rewrite !flat_map_app, translate_text_events_prompts.
  destruct (is_success _); destruct (i + 1 <? total)%nat;
    destruct (truthy chunk); reflexivity.
Qed.

Lemma loop_events_sleeps (chunks : list str) (total i : nat) :
  (i + List.length chunks = total)%nat ->
  List.length (filter is_sleep (loop_events api total i chunks)) =
  pred (List.length chunks).
Proof.
  revert i. induction chunks as [|chunk rest IH]; intros i Hi; [reflexivity|].
  cbn [loop_events List.length] in *.
  rewrite filter_app, length_app, turn_events_sleeps, IH by lia.
  destruct (Nat.ltb_spec (i + 1) total); destruct rest; cbn in *; lia.
Qed.

Lemma loop_events_prompts (chunks : list str) (total i : nat) :
  flat_map prompts (loop_events api total i chunks) =
  map (fun chunk => fixed_instruction_prompt ++ SEP ++ chunk)
    (filter truthy chunks).
Proof.
  revert i. induction chunks as [|chunk rest IH]; intros i; [reflexivity|].
  cbn [loop_events filter]. rewrite flat_map_app, turn_events_prompts, IH.
  destruct (truthy chunk); reflexivity.
Qed.

Lemma last_app_r {A : Type} (l1 l2 : list A) (d : A) :
  l2 <> [] -> last (l1 ++ l2) d = last l2 d.
Proof.
  intros H. induction l1 as [|x l1 IH]; [reflexivity|].
  cbn [app]. destruct (l1 ++ l2) eqn:E; [|exact IH].
  apply app_eq_nil in E. destruct E. congruence.
Qed.

Lemma loop_events_last (chunks : list str) (total i : nat) (d : event) :
  chunks <> [] -> (i + List.length chunks = total)%nat ->
  last (loop_events api total i chunks) d = Progress total total.
Proof.
  revert i. induction chunks as [|chunk rest IH]; intros i Hne Hi;
    [congruence|].
  cbn [loop_events List.length] in *. destruct rest as [|c rest].
  - cbn [loop_events]. rewrite app_nil_r. unfold turn_events.
    cbn [List.length] in Hi.
    destruct (Nat.ltb_spec (i + 1) total); [lia|].
    rewrite app_nil_r, !app_assoc.
    rewrite last_app_r by discriminate. cbn. f_equal; lia.
  - rewrite last_app_r.
    + apply IH; [discriminate | cbn [List.length] in *; lia].
    + cbn [loop_events]. unfold turn_events. discriminate.
Qed.

End Pace.

(** X10. The loop of the handler sleeps once between two chunks and never
    after the last: for [n] chunks it sleeps [n - 1] times, and with at
    least one chunk the last thing it does is to set the progress bar to
    [n / n]. It calls the API once for each chunk that is not empty, in
    the order of the chunks, with the fixed prompt, the separator and the
    chunk; for an empty chunk it makes no call. *)
Theorem loop_paces_the_api_calls
    (api : nat -> str -> api_result) (chunks : list str) :
  List.length (filter is_sleep (handler_loop_events api chunks)) =
    pred (List.length chunks) /\
  Forall (fun e => is_sleep e = true -> e = Sleep API_CALL_DELAY)
    (handler_loop_events api chunks) /\
  flat_map prompts (handler_loop_events api chunks) =
    map (fun chunk => fixed_instruction_prompt ++ SEP ++ chunk)
      (filter truthy chunks) /\
  (chunks <> [] ->
   forall d, last (handler_loop_events api chunks) d =
             Progress (List.length chunks) (List.length chunks)).
Proof.
  unfold handler_loop_events. split; [|split; [|split]].
  - now apply loop_events_sleeps.
  - generalize (List.length chunks) at 1. generalize 0%nat.
    induction chunks as [|chunk rest IH]; intros i total; [constructor|].
    cbn [loop_events]. apply Forall_app. split; [|apply IH].
    unfold turn_events, translate_text_events.
    repeat (apply Forall_app; split);
      repeat match goal with
        | |- context [if ?b then _ else _] => destruct b
        | |- context [match ?a with Stream _ => _ | Raises _ => _ end] =>
            destruct a
        end;
      repeat constructor; cbn; intros; congruence.
  - apply loop_events_prompts.
  - intros Hne d. now apply loop_events_last.
Qed.

Lemma loop_paces_the_api_calls_witness :
  last (handler_loop_events failing_api [lit "a"; []; lit "b"]) (Sleep 0) =
    Progress 3 3.
Proof.
  apply (proj2 (proj2 (proj2
           (loop_paces_the_api_calls failing_api [lit "a"; []; lit "b"])))).
  discriminate.
Defined.

(** ** The docx writer *)

Section DocxWriter.







End DocxWriter.


(** ** Reading the uploaded file *)

(** X12. A text that [extract_text_from_file] returns has no whitespace at
    either end and is left as it is by [strip]; so the handler, which tests
    the stripped text, takes its branch for a text without content exactly
    when the text returned is empty. *)
Theorem extracted_text_is_stripped (f : upload) (t : str) (fuel : nat) :
  extract_text_from_file f = Some t ->
  strip t = t /\
  clean_head t = true /\ clean_head (rev t) = true /\
  (dispatch fuel (Some t) = NoText <-> t = []).
Proof.
  intros H.
  assert (exists s, t = strip s) as [s ->].
  { unfold extract_text_from_file in H.
    repeat match type of H with
      | (if ?b then _ else _) = _ => destruct b
      | match ?x with _ => _ end = _ => destruct x
      end; try discriminate; injection H as <-; eauto. }
  destruct (strip_clean s) as [H1 H2].
  split; [apply strip_idem | split; [exact H1 | split; [exact H2|]]].
  unfold dispatch. rewrite strip_idem.
  destruct (strip s) as [|c r] eqn:E; cbn [truthy].
  - split; reflexivity.
  - split; [|discriminate].
    destruct (split_text_into_chunks fuel _ _) as [[|? ?]|]; discriminate.
Qed.

Lemma extracted_text_is_stripped_witness :
  strip (lit "one" ++ [NL] ++ lit "three") = lit "one" ++ [NL] ++ lit "three".
Proof.
  apply (proj1 (extracted_text_is_stripped three_pages
                  (lit "one" ++ [NL] ++ lit "three") 0 eq_refl)).
Defined.
